(** * GraphGallery: [normalize_adj]

    A shallow embedding of
    [graphgallery/transformers/adj_transformer/normalize_adj.py].

    The Python function works on scipy sparse matrices and numpy arrays.
    The embedding keeps what the source depends on:

    - numbers are an abstract type with the operations numpy applies to
      them ([NumOps]) and the laws the proofs need ([Numeric]); the
      non-finite values that [np.power] produces are part of the type, and
      the operations can be run on binary64 floats ([Float64]);
    - a sparse matrix is its format tag, its dimension and its stored
      (row, col, value) triples; a dense matrix is a list of rows;
    - matrices are Python objects: they live in a heap, the library calls
      allocate their results and [adj.data = ...] updates an object in place;
    - a library call that raises ends the computation with that exception. *)

From Stdlib Require Import PrimFloat.
From Stdlib Require Import List Finite Arith Bool Lia ZArith.
Import ListNotations.

(** ** Numbers *)

(** The scalar type of the matrices with the operations the source applies
    to it.  [power] is [np.power] on two scalars. *)
Class NumOps (F : Type) : Type := {
  zero : F;
  one : F;
  add : F -> F -> F;
  mul : F -> F -> F;
  power : F -> F -> F;
  is_zero : F -> bool;
  is_negative : F -> bool;
  is_finite : F -> bool
}.

(** The laws that the properties below rely on.  Multiplying by [zero]
    gives [zero] for finite numbers only, as with the infinities of
    numpy.  Multiplication is not taken to be associative: the rounded
    product of three floating-point numbers depends on the order.  The
    laws of addition serve to reorder the sum of a row. *)
Class Numeric (F : Type) : Type := {
  num_ops :: NumOps F;
  add_comm : forall x y : F, add x y = add y x;
  add_assoc : forall x y z : F, add x (add y z) = add (add x y) z;
  add_0_l : forall x : F, add zero x = x;
  mul_comm : forall x y : F, mul x y = mul y x;
  mul_1_l : forall x : F, mul one x = x;
  is_zero_spec : forall x : F, is_zero x = true <-> x = zero;
  mul_finite : forall x y : F, is_finite (mul x y) = true -> is_finite x = true;
  mul_zero_finite : forall x : F, is_finite x = true -> mul zero x = zero;
  power_zero_negative :
    forall r : F, is_negative r = true -> is_finite (power zero r) = false
}.

(** ** Exceptions *)

Inductive exc : Type :=
  | TypeError | ValueError | IndexError | AttributeError | NameError
  | InvalidArgument.

Inductive result (A : Type) : Type :=
  | Ok (a : A)
  | Raise (e : exc).
Arguments Ok {A} a.
Arguments Raise {A} e.

Definition rbind {A B} (c : result A) (k : A -> result B) : result B :=
  match c with
  | Ok a => k a
  | Raise e => Raise e
  end.

Notation "'let?' x ':=' c 'in' k" := (rbind c (fun x => k))
  (at level 10, x pattern, c at level 100, k at level 200).

Fixpoint rmapM {A B} (f : A -> result B) (l : list A) : result (list B) :=
  match l with
  | [] => Ok []
  | a :: l' => let? b := f a in let? bs := rmapM f l' in Ok (b :: bs)
  end.

(** ** Matrices *)

Inductive sp_format : Type := COO | CSR | CSC | LIL | DOK | DIA.

Inductive dense_kind : Type := NdArray | NpMatrix.

(** The [rate] argument: [None], a number, or a sequence whose elements
    are numbers or [None]. *)
Inductive rate_arg (F : Type) : Type :=
  | RNone
  | RScalar (x : F)
  | RSeq (l : list (option F)).
Arguments RNone {F}.
Arguments RScalar {F} x.
Arguments RSeq {F} l.

Definition rate_of_elem {F} (o : option F) : rate_arg F :=
  match o with
  | Some x => RScalar x
  | None => RNone
  end.

Definition tabulate {A} (n : nat) (f : nat -> A) : list A := map f (seq 0 n).

Section Matrices.

Context {F : Type} `{NumOps F}.

(** A stored entry of a sparse matrix: row, column, value. *)
Definition entry : Type := nat * nat * F.

Definition e_row (e : entry) : nat := fst (fst e).
Definition e_col (e : entry) : nat := snd (fst e).
Definition e_val (e : entry) : F := snd e.

Definition in_row (i : nat) (e : entry) : bool := e_row e =? i.
Definition in_col (j : nat) (e : entry) : bool := e_col e =? j.
Definition at_pos (i j : nat) (e : entry) : bool := in_row i e && in_col j e.

(** A scipy sparse matrix, square of dimension [sp_dim].  Entries stored
    twice at one position stand for their sum, as in scipy. *)
Record spmatrix : Type := SpMatrix {
  sp_fmt : sp_format;
  sp_dim : nat;
  sp_entries : list entry
}.

(** A matrix object: scipy sparse, or dense (an [np.ndarray] or an
    [np.matrix]) given by its rows. *)
Inductive matrix : Type :=
  | Sparse (m : spmatrix)
  | Dense (k : dense_kind) (rows : list (list F)).

Definition fsum (l : list F) : F := fold_right add zero l.

(** The value of a sparse matrix at (i, j). *)
Definition sp_entry (es : list entry) (i j : nat) : F :=
  fsum (map e_val (filter (at_pos i j) es)).

Definition stored (es : list entry) (i j : nat) : bool :=
  existsb (at_pos i j) es.

Definition dense_entry (rows : list (list F)) (i j : nat) : F :=
  nth j (nth i rows []) zero.

Definition mat_entry (m : matrix) (i j : nat) : F :=
  match m with
  | Sparse a => sp_entry (sp_entries a) i j
  | Dense _ rows => dense_entry rows i j
  end.

(** [adj.shape[0]] *)
Definition dim (m : matrix) : nat :=
  match m with
  | Sparse a => sp_dim a
  | Dense _ rows => length rows
  end.

(** [sp.isspmatrix] *)
Definition isspmatrix (m : matrix) : bool :=
  match m with
  | Sparse _ => true
  | Dense _ _ => false
  end.

(** The positions of an n x n matrix in row-major order. *)
Definition positions (n : nat) : list (nat * nat) :=
  flat_map (fun i => map (pair i) (seq 0 n)) (seq 0 n).

Definition canonical_cell (es : list entry) (p : nat * nat) : list entry :=
  if stored es (fst p) (snd p) then [(p, sp_entry es (fst p) (snd p))] else [].

(** Stored entries in canonical form: row-major, one entry per stored
    position, duplicates summed (what scipy's conversion to CSR does). *)
Definition canonical_entries (n : nat) (es : list entry) : list entry :=
  flat_map (canonical_cell es) (positions n).

(** [sp.eye(n)] *)
Definition sp_eye (n : nat) : spmatrix :=
  SpMatrix DIA n (map (fun i => (i, i, one)) (seq 0 n)).

(** [s * m] for a scalar [s] and a sparse [m]: the stored values scaled. *)
Definition sp_scale (s : F) (m : spmatrix) : spmatrix :=
  SpMatrix (sp_fmt m) (sp_dim m)
    (map (fun e => (fst e, mul s (e_val e))) (sp_entries m)).

(** The format of the sum of a sparse matrix of format [f] with a sparse
    matrix of format [g]: a CSC matrix adds as CSC and so does a DOK
    matrix, which is converted to CSC first; two DIA matrices add as DIA;
    every other sum is made in CSR. *)
Definition sparse_add_format (f g : sp_format) : sp_format :=
  match f, g with
  | CSC, _ | DOK, _ => CSC
  | DIA, DIA => DIA
  | _, _ => CSR
  end.

Definition nonzero_entry (e : entry) : bool := negb (is_zero (e_val e)).

(** sparse + sparse: a new matrix.  Its entries are listed one per
    position in row-major order, whatever the order in which the format
    keeps them, and positions whose sum is zero are not listed: a sum in
    CSR or CSC format does not store them, and the zeros that a sum in
    DIA format keeps on its diagonals are left out by the conversion to
    COO that follows in [normalize]. *)
Definition sp_add (a b : spmatrix) : result spmatrix :=
  if sp_dim a =? sp_dim b
  then Ok (SpMatrix (sparse_add_format (sp_fmt a) (sp_fmt b)) (sp_dim a)
             (filter nonzero_entry
                (canonical_entries (sp_dim a) (sp_entries a ++ sp_entries b))))
  else Raise ValueError.

Definition square (rows : list (list F)) : bool :=
  forallb (fun row => length row =? length rows) rows.

(** An n x 1 array: every row has one element. *)
Definition column (rows : list (list F)) : bool :=
  forallb (fun row => length row =? 1) rows.

(** dense + sparse, for operands with the same number of rows: a new
    dense matrix.  numpy broadcasts the dense operand to the shape of the
    sparse one: an n x n array is taken as it is, the column of an n x 1
    array is repeated, any other shape is an error. *)
Definition dense_add_sp (rows : list (list F)) (b : spmatrix)
  : result (list (list F)) :=
  if length rows =? sp_dim b then
    if square rows
    then Ok (tabulate (length rows) (fun i =>
               tabulate (length rows) (fun j =>
                 add (dense_entry rows i j) (sp_entry (sp_entries b) i j))))
    else if column rows
    then Ok (tabulate (length rows) (fun i =>
               tabulate (length rows) (fun j =>
                 add (dense_entry rows i 0) (sp_entry (sp_entries b) i j))))
    else Raise ValueError
  else Raise ValueError.

(** [a + b] for a matrix [a] and a sparse [b]; with a dense [a] the sum
    is an [np.matrix]. *)
Definition mat_add (a : matrix) (b : spmatrix) : result matrix :=
  match a with
  | Sparse m => let? c := sp_add m b in Ok (Sparse c)
  | Dense _ rows => let? c := dense_add_sp rows b in Ok (Dense NpMatrix c)
  end.

(** [m.sum(1).A1]: the row sums as a flat vector. *)
Definition row_sums (m : matrix) : list F :=
  match m with
  | Sparse a =>
      tabulate (sp_dim a) (fun i =>
        fsum (map e_val (filter (in_row i) (sp_entries a))))
  | Dense _ rows => map fsum rows
  end.

(** numpy broadcasting of two vectors: equal lengths pair up, a vector of
    length one is repeated, anything else is an error. *)
Definition np_broadcast2 {A B} (xs : list A) (ys : list B)
  : result (list (A * B)) :=
  if length xs =? length ys then Ok (combine xs ys)
  else match xs, ys with
       | _, [y] => Ok (map (fun x => (x, y)) xs)
       | [x], _ => Ok (map (fun y => (x, y)) ys)
       | _, _ => Raise ValueError
       end.

Definition power_elem (p : F * option F) : result F :=
  match snd p with
  | Some x => Ok (power (fst p) x)
  | None => Raise TypeError
  end.

(** [np.power(degree, r)] *)
Definition np_power (degree : list F) (r : rate_arg F) : result (list F) :=
  match r with
  | RNone => Raise TypeError
  | RScalar x => Ok (map (fun d => power d x) degree)
  | RSeq l => let? ps := np_broadcast2 degree l in rmapM power_elem ps
  end.

(** [v[idx]] for an index vector [idx]. *)
Definition np_take (v : list F) (idx : list nat) : result (list F) :=
  rmapM (fun i => match nth_error v i with
                  | Some x => Ok x
                  | None => Raise IndexError
                  end) idx.

(** [xs * ys], elementwise. *)
Definition np_mul (xs ys : list F) : result (list F) :=
  let? ps := np_broadcast2 xs ys in Ok (map (fun p => mul (fst p) (snd p)) ps).

(** The matrix [m] seen as COO and as CSR. *)
Definition as_coo (m : spmatrix) : spmatrix :=
  SpMatrix COO (sp_dim m) (sp_entries m).

Definition as_csr (m : spmatrix) : spmatrix :=
  SpMatrix CSR (sp_dim m) (canonical_entries (sp_dim m) (sp_entries m)).

(** The matrix [m] after [m.data = d]. *)
Definition with_data (m : spmatrix) (d : list F) : spmatrix :=
  SpMatrix (sp_fmt m) (sp_dim m)
    (map (fun p => (fst (fst p), snd p)) (combine (sp_entries m) d)).

(** [sp.diags(v)] *)
Definition sp_diags (v : list F) : spmatrix :=
  SpMatrix DIA (length v) (map (fun i => (i, i, nth i v zero)) (seq 0 (length v))).

(** The entries of a sparse matrix that take part in a product with a
    dense matrix.  scipy multiplies a DIA matrix after converting it to
    CSR, and that conversion leaves out the zeros stored on the diagonals;
    the other formats multiply with all their stored entries. *)
Definition product_entries (d : spmatrix) : list entry :=
  match sp_fmt d with
  | DIA => filter nonzero_entry (sp_entries d)
  | _ => sp_entries d
  end.

(** [d @ x] for a sparse [d] and a dense [x]: only the entries of [d] that
    take part contribute, so a row of [d] without any gives a row of
    zeros. *)
Definition sp_matmul_dense (d : spmatrix) (rows : list (list F))
  : result (list (list F)) :=
  if sp_dim d =? length rows
  then Ok (tabulate (length rows) (fun i =>
             tabulate (length rows) (fun j =>
               fsum (map (fun e => mul (e_val e) (dense_entry rows (e_col e) j))
                         (filter (in_row i) (product_entries d))))))
  else Raise ValueError.

(** [x @ d] for a dense [x] and a sparse [d]. *)
Definition dense_matmul_sp (rows : list (list F)) (d : spmatrix)
  : result (list (list F)) :=
  if length rows =? sp_dim d
  then Ok (tabulate (length rows) (fun i =>
             tabulate (length rows) (fun j =>
               fsum (map (fun e => mul (dense_entry rows i (e_row e)) (e_val e))
                         (filter (in_col j) (product_entries d))))))
  else Raise ValueError.

End Matrices.

Arguments entry F : clear implicits.
Arguments spmatrix F : clear implicits.
Arguments matrix F : clear implicits.

(** ** Python objects and the heap *)

Section Program.

Context {F : Type} `{NumOps F}.

(** Matrices are objects on a heap; a location is an index into it. *)
Definition loc : Type := nat.
Definition heap : Type := list (matrix F).

(** Computations read and write the heap and either return or raise. *)
Definition M (A : Type) : Type := heap -> heap * result A.

Definition ret {A} (a : A) : M A := fun h => (h, Ok a).

Definition raise {A} (e : exc) : M A := fun h => (h, Raise e).

Definition bind {A B} (c : M A) (k : A -> M B) : M B :=
  fun h =>
    match c h with
    | (h', Ok a) => k a h'
    | (h', Raise e) => (h', Raise e)
    end.

Definition lift {A} (r : result A) : M A := fun h => (h, r).

Notation "x <- c ;; k" := (bind c (fun x => k))
  (at level 61, c at next level, right associativity).
Notation "c ;;; k" := (bind c (fun _ => k))
  (at level 61, right associativity).

Fixpoint update {A} (l : list A) (i : nat) (a : A) : list A :=
  match l, i with
  | [], _ => []
  | _ :: l', 0 => a :: l'
  | x :: l', S i' => x :: update l' i' a
  end.

Definition alloc (m : matrix F) : M loc :=
  fun h => (h ++ [m], Ok (length h)).

Definition deref (l : loc) : M (matrix F) :=
  fun h =>
    match nth_error h l with
    | Some m => (h, Ok m)
    | None => (h, Raise NameError)
    end.

Definition store (l : loc) (m : matrix F) : M unit :=
  fun h => (update h l m, Ok tt).

Fixpoint mapM {A B} (f : A -> M B) (l : list A) : M (list B) :=
  match l with
  | [] => ret []
  | a :: l' => b <- f a ;; bs <- mapM f l' ;; ret (b :: bs)
  end.

(** [adj.shape[0]] *)
Definition shape0 (adj : loc) : M nat :=
  m <- deref adj ;; ret (dim m).

(** [adj + b]: the sum is a new object. *)
Definition py_add (adj : loc) (b : spmatrix F) : M loc :=
  m <- deref adj ;; c <- lift (mat_add m b) ;; alloc c.

(** [adj.sum(1).A1] *)
Definition sum1_A1 (adj : loc) : M (list F) :=
  m <- deref adj ;; ret (row_sums m).

(** [adj.tocoo(copy=False)]: the object itself when it is COO already. *)
Definition tocoo (adj : loc) : M loc :=
  m <- deref adj ;;
  match m with
  | Sparse a =>
      match sp_fmt a with
      | COO => ret adj
      | _ => alloc (Sparse (as_coo a))
      end
  | Dense _ _ => raise AttributeError
  end.

(** [adj.tocsr(copy=False)]: the object itself when it is CSR already. *)
Definition tocsr (adj : loc) : M loc :=
  m <- deref adj ;;
  match m with
  | Sparse a =>
      match sp_fmt a with
      | CSR => ret adj
      | _ => alloc (Sparse (as_csr a))
      end
  | Dense _ _ => raise AttributeError
  end.

(** [adj.row], [adj.col], [adj.data] *)
Definition sp_attr {A} (f : entry F -> A) (adj : loc) : M (list A) :=
  m <- deref adj ;;
  match m with
  | Sparse a => ret (map f (sp_entries a))
  | Dense _ _ => raise AttributeError
  end.

(** [adj.data = d]: the object at [adj] is updated in place. *)
Definition set_data (adj : loc) (d : list F) : M unit :=
  m <- deref adj ;;
  match m with
  | Sparse a => store adj (Sparse (with_data a d))
  | Dense _ _ => raise AttributeError
  end.

(** ** The source *)

(** The inner function [normalize(adj, r)] of [normalize_adj], closed over
    [selfloop].  The test [sp.isspmatrix(adj)] is the case analysis on the
    object at [adj]; the products of the dense branch are temporaries and
    only its result, [adj.A], is put on the heap. *)
Definition normalize (selfloop : F) (adj : loc) (r : rate_arg F) : M loc :=
  (* adj = adj + selfloop * sp.eye(adj.shape[0]) *)
  n <- shape0 adj ;;
  adj <- py_add adj (sp_scale selfloop (sp_eye n)) ;;
  match r with
  | RNone => ret adj
  | _ =>
      (* degree = adj.sum(1).A1; degree_power = np.power(degree, r) *)
      degree <- sum1_A1 adj ;;
      degree_power <- lift (np_power degree r) ;;
      m <- deref adj ;;
      match m with
      | Sparse _ =>
          adj <- tocoo adj ;;
          (* adj.data = degree_power[adj.row] * adj.data * degree_power[adj.col] *)
          row <- sp_attr e_row adj ;;
          scaled_rows <- lift (np_take degree_power row) ;;
          data <- sp_attr e_val adj ;;
          half <- lift (np_mul scaled_rows data) ;;
          col <- sp_attr e_col adj ;;
          scaled_cols <- lift (np_take degree_power col) ;;
          new_data <- lift (np_mul half scaled_cols) ;;
          set_data adj new_data ;;;
          tocsr adj
      | Dense _ rows =>
          (* adj = degree_power_matrix @ adj @ degree_power_matrix; adj.A *)
          let degree_power_matrix := sp_diags degree_power in
          half <- lift (sp_matmul_dense degree_power_matrix rows) ;;
          full <- lift (dense_matmul_sp half degree_power_matrix) ;;
          alloc (Dense NdArray full)
      end
  end.

(** Modelled from the spec: [graphgallery.utils.shape.repeat] is not part
    of the sources.  A single value is replicated [length] times; a
    sequence must have that length, or length one, which is replicated;
    any other sequence is an invalid argument. *)
Definition repeat (src : rate_arg F) (length : nat)
  : result (list (rate_arg F)) :=
  match src with
  | RSeq l =>
      if List.length l =? length then Ok (map rate_of_elem l)
      else match l with
           | [x] => Ok (List.repeat (rate_of_elem x) length)
           | _ => Raise InvalidArgument
           end
  | _ => Ok (List.repeat src length)
  end.

(** What a call returns: one matrix, or a tuple of matrices. *)
Inductive pyout : Type :=
  | OSingle (l : loc)
  | OTuple (ls : list loc).

Definition out_locs (o : pyout) : list loc :=
  match o with
  | OSingle l => [l]
  | OTuple ls => ls
  end.

(** The function [normalize_adj] of the source: one matrix is
    normalized with [rate] as it is; otherwise [rate] is repeated to the
    number of matrices and each matrix is normalized with its rate, in
    order, the pairs being those of [zip]. *)
Definition normalize_adj (adj_matrics : list loc) (rate : rate_arg F)
    (selfloop : F) : M pyout :=
  let size := length adj_matrics in
  if size =? 1 then
    match adj_matrics with
    | adj :: _ => l <- normalize selfloop adj rate ;; ret (OSingle l)
    | [] => raise IndexError
    end
  else
    rates <- lift (repeat rate size) ;;
    ls <- mapM (fun p => normalize selfloop (fst p) (snd p))
               (combine adj_matrics rates) ;;
    ret (OTuple ls).

(** The transformer object [NormalizeAdj]: it stores [rate] and
    [selfloop] and calls [normalize_adj] with them. *)
Record NormalizeAdj : Type := {
  na_rate : rate_arg F;
  na_selfloop : F
}.

Definition call (self : NormalizeAdj) (adj_matrics : list loc) : M pyout :=
  normalize_adj adj_matrics (na_rate self) (na_selfloop self).

(** ** The value computed by [normalize] *)

(** The matrix that [normalize] returns for the matrix [a], as a function
    of values; [normalize_refines] below relates the two. *)
Definition scale_entries (dp : list F) (b : spmatrix F) : result (list F) :=
  let? scaled_rows := np_take dp (map e_row (sp_entries b)) in
  let? half := np_mul scaled_rows (map e_val (sp_entries b)) in
  let? scaled_cols := np_take dp (map e_col (sp_entries b)) in
  np_mul half scaled_cols.

Definition normalize_value (selfloop : F) (a : matrix F) (r : rate_arg F)
  : result (matrix F) :=
  let? b := mat_add a (sp_scale selfloop (sp_eye (dim a))) in
  match r with
  | RNone => Ok b
  | _ =>
      let? dp := np_power (row_sums b) r in
      match b with
      | Sparse sb =>
          let? new_data := scale_entries dp sb in
          Ok (Sparse (as_csr (with_data (as_coo sb) new_data)))
      | Dense _ rows =>
          let? half := sp_matmul_dense (sp_diags dp) rows in
          let? full := dense_matmul_sp half (sp_diags dp) in
          Ok (Dense NdArray full)
      end
  end.

(** A computation returns the matrix [r]: it ends normally with a
    location that holds [r]. *)
Definition returns (c : M loc) (h : heap) (r : matrix F) : Prop :=
  exists h' l, c h = (h', Ok l) /\ nth_error h' l = Some r.

Definition raises {A} (c : M A) (h : heap) (e : exc) : Prop :=
  exists h', c h = (h', Raise e).

(** ** The quantities of the specification *)

(** A well-formed matrix: the stored entries of a sparse matrix lie inside
    it, a dense matrix is square. *)
Definition wf_matrix (a : matrix F) : bool :=
  match a with
  | Sparse m =>
      forallb (fun e => (e_row e <? sp_dim m) && (e_col e <? sp_dim m))
              (sp_entries m)
  | Dense _ rows => square rows
  end.

(** [A + selfloop * I] at (i, j). *)
Definition augmented (selfloop : F) (a : matrix F) (i j : nat) : F :=
  add (mat_entry a i j) (if i =? j then selfloop else zero).

(** The degree of node [i]: the sum of row [i] of [A + selfloop * I]. *)
Definition degree (selfloop : F) (a : matrix F) (i : nat) : F :=
  fsum (map (augmented selfloop a i) (seq 0 (dim a))).

(** A stored entry scaled by the degree powers of its row and column. *)
Definition scale_entry (dp : list F) (e : entry F) : F :=
  mul (mul (nth (e_row e) dp zero) (e_val e)) (nth (e_col e) dp zero).

(** All entries of a matrix are symmetric about the diagonal. *)
Definition symmetric (a : matrix F) : Prop :=
  forall i j, i < dim a -> j < dim a -> mat_entry a i j = mat_entry a j i.

(** All entries of a matrix are finite. *)
Definition all_finite (a : matrix F) : Prop :=
  forall i j, i < dim a -> j < dim a -> is_finite (mat_entry a i j) = true.

End Program.

Arguments heap F : clear implicits.
Arguments NormalizeAdj F : clear implicits.

Notation "x <- c ;; k" := (bind c (fun x => k))
  (at level 61, c at next level, right associativity).

(** ** Derived quantities *)

(** The results of the operations in closed form, in which the lemmas of
    the second part describe what [normalize] computes. *)

Section Derived.

Context {F : Type} `{NumOps F}.

Implicit Types (h : heap F) (a : matrix F) (s : F) (dp : list F)
  (o : option F) (es : list (entry F)).

(** The stored entry, if any, at each position of a matrix. *)
Definition cell (f : nat * nat -> option F) (p : nat * nat) : list (entry F) :=
  match f p with
  | Some v => [(p, v)]
  | None => []
  end.

(** A list of entries with at most one per position, in row-major order. *)
Definition is_canonical (n : nat) es : Prop :=
  exists f, es = flat_map (cell f) (positions n).

(** [selfloop * sp.eye(n)] *)
Definition selfloops s (n : nat) : spmatrix F := sp_scale s (sp_eye n).

(** The sum [A + selfloop * I] of the first line of [normalize], for a
    sparse and for a dense [A]. *)
Definition sparse_sum s (m : spmatrix F) : spmatrix F :=
  SpMatrix (sparse_add_format (sp_fmt m) DIA) (sp_dim m)
    (filter nonzero_entry
       (canonical_entries (sp_dim m)
          (sp_entries m ++ sp_entries (selfloops s (sp_dim m))))).

Definition dense_sum s (rows : list (list F)) : list (list F) :=
  tabulate (length rows) (fun i =>
    tabulate (length rows) (fun j => augmented s (Dense NdArray rows) i j)).

Definition augmented_matrix s a : matrix F :=
  match a with
  | Sparse m => Sparse (sparse_sum s m)
  | Dense _ rows => Dense NpMatrix (dense_sum s rows)
  end.

(** The matrix that the sparse branch of [normalize] builds from the
    degree powers [dp]. *)
Definition sparse_result s (m : spmatrix F) dp : spmatrix F :=
  SpMatrix CSR (sp_dim m)
    (map (fun e => (fst e, scale_entry dp e)) (sp_entries (sparse_sum s m))).

(** The entry that the scaling gives at a position where the sum
    [A + selfloop * I] has the value [b], from the degree powers [dpi] of
    the row and [dpj] of the column.  The sparse branch scales the stored
    entries, those that are not zero, and leaves the other positions at
    zero.  The dense branch multiplies by the diagonal matrix of the degree
    powers on both sides, and a product leaves out the zeros of that
    diagonal: a zero degree power gives zero whatever it is multiplied
    with. *)
Definition scaled_entry (sparse : bool) (dpi b dpj : F) : F :=
  if sparse
  then if is_zero b then zero else mul (mul dpi b) dpj
  else if is_zero dpj then zero
       else mul (if is_zero dpi then zero else mul dpi b) dpj.

(** The matrix that the dense branch of [normalize] builds. *)
Definition dense_result s (rows : list (list F)) dp : list (list F) :=
  tabulate (length rows) (fun i =>
    tabulate (length rows) (fun j =>
      scaled_entry false (nth i dp zero)
        (augmented s (Dense NdArray rows) i j) (nth j dp zero))).

Definition scaled_matrix s a dp : matrix F :=
  match a with
  | Sparse m => Sparse (sparse_result s m dp)
  | Dense _ rows => Dense NdArray (dense_result s rows dp)
  end.

(** The degree powers for a scalar rate. *)
Definition degree_power s a (r : F) : list F :=
  map (fun d => power d r) (tabulate (dim a) (degree s a)).

(** The matrix returned for [a] under the effective rate [o]. *)
Definition output_value s a o : matrix F :=
  match o with
  | None => augmented_matrix s a
  | Some r => scaled_matrix s a (degree_power s a r)
  end.

(** The rate that each matrix of a call gets: the rate itself when there
    is one matrix, what [repeat] gives otherwise. *)
Definition effective_rates (rate : rate_arg F) (size : nat)
  : result (list (rate_arg F)) :=
  if size =? 1 then Ok [rate] else repeat rate size.

(** The values of a batch, one per pair of matrix and rate. *)
Definition normalize_values s (items : list (matrix F * rate_arg F))
  : result (list (matrix F)) :=
  rmapM (fun q => normalize_value s (fst q) (snd q)) items.

(** The location [l] of the heap holds the matrix [v]. *)
Definition holds h (l : loc) (v : matrix F) : Prop := nth_error h l = Some v.

(** One heap extends another: the objects of the first are unchanged in
    the second. *)
Definition extends (h h' : heap F) : Prop := exists ext, h' = h ++ ext.

Definition is_tuple (out : pyout) : bool :=
  match out with
  | OSingle _ => false
  | OTuple _ => true
  end.

End Derived.

(** Integers extended with one non-finite value, [None]: the instance on
    which the statements below are evaluated. *)
Module XInt.

Definition t := option Z.

Definition lift2 (f : Z -> Z -> Z) (x y : t) : t :=
  match x, y with
  | Some a, Some b => Some (f a b)
  | _, _ => None
  end.

Definition xpower (d r : t) : t :=
  match d, r with
  | Some a, Some b =>
      if (b <? 0)%Z
      then (if (a =? 0)%Z then None else Some (1 / Z.pow a (- b))%Z)
      else Some (Z.pow a b)
  | _, _ => None
  end.

Definition xis_zero (x : t) : bool :=
  match x with Some a => (a =? 0)%Z | None => false end.

Definition xis_negative (x : t) : bool :=
  match x with Some a => (a <? 0)%Z | None => false end.

Definition xis_finite (x : t) : bool :=
  match x with Some _ => true | None => false end.

Lemma xadd_comm x y : lift2 Z.add x y = lift2 Z.add y x.
Proof. destruct x, y; simpl; f_equal; lia. Qed.

Lemma xadd_assoc x y z :
  lift2 Z.add x (lift2 Z.add y z) = lift2 Z.add (lift2 Z.add x y) z.
Proof. destruct x, y, z; simpl; f_equal; lia. Qed.

Lemma xadd_0_l x : lift2 Z.add (Some 0%Z) x = x.
Proof. destruct x; simpl; f_equal. Qed.

Lemma xmul_comm x y : lift2 Z.mul x y = lift2 Z.mul y x.
Proof. destruct x, y; simpl; f_equal; lia. Qed.

Lemma xmul_1_l x : lift2 Z.mul (Some 1%Z) x = x.
Proof. destruct x as [a|]; simpl; f_equal. destruct a; reflexivity. Qed.

Lemma xis_zero_spec x : xis_zero x = true <-> x = Some 0%Z.
Proof.
  destruct x as [a|]; simpl.
  - rewrite Z.eqb_eq. split; [intros ->; reflexivity | congruence].
  - split; discriminate.
Qed.

Lemma xmul_finite x y :
  xis_finite (lift2 Z.mul x y) = true -> xis_finite x = true.
Proof. destruct x, y; simpl; auto. Qed.

Lemma xmul_zero_finite x :
  xis_finite x = true -> lift2 Z.mul (Some 0%Z) x = Some 0%Z.
Proof. destruct x; simpl; [reflexivity | discriminate]. Qed.

Lemma xpower_zero_negative r :
  xis_negative r = true -> xis_finite (xpower (Some 0%Z) r) = false.
Proof.
  destruct r as [b|]; simpl; [|discriminate].
  intros ->. reflexivity.
Qed.

Definition ops : NumOps t := {|
  zero := Some 0%Z;
  one := Some 1%Z;
  add := lift2 Z.add;
  mul := lift2 Z.mul;
  power := xpower;
  is_zero := xis_zero;
  is_negative := xis_negative;
  is_finite := xis_finite
|}.

#[export] Instance numeric : Numeric t := {|
  num_ops := ops;
  add_comm := xadd_comm;
  add_assoc := xadd_assoc;
  add_0_l := xadd_0_l;
  mul_comm := xmul_comm;
  mul_1_l := xmul_1_l;
  is_zero_spec := xis_zero_spec;
  mul_finite := xmul_finite;
  mul_zero_finite := xmul_zero_finite;
  power_zero_negative := xpower_zero_negative
|}.

End XInt.

(** Binary64 floating-point numbers, with the arithmetic of numpy's
    [float64]: the instance on which the effect of rounding is shown.
    [np.power] returns its first argument for the exponent 1 and 1 for the
    exponent 0; it rounds at the other exponents, which the examples do
    not use and for which [nan] stands here. *)
Module Float64.

Definition fpower (d r : float) : float :=
  if PrimFloat.eqb r 1%float then d
  else if PrimFloat.eqb r 0%float then 1%float
  else PrimFloat.nan.

#[export] Instance ops : NumOps float := {|
  zero := 0%float;
  one := 1%float;
  add := PrimFloat.add;
  mul := PrimFloat.mul;
  power := fpower;
  is_zero := fun x => PrimFloat.eqb x 0%float;
  is_negative := fun x => PrimFloat.ltb x 0%float;
  is_finite := PrimFloat.is_finite
|}.

End Float64.

(** * Properties *)

(** ** Lists *)

Lemma nth_tabulate {A} (n : nat) (f : nat -> A) (d : A) (i : nat) :
  i < n -> nth i (tabulate n f) d = f i.
Proof.
  intros Hi. unfold tabulate.
  rewrite (nth_indep _ d (f 0)) by (rewrite length_map, length_seq; exact Hi).
  rewrite map_nth, seq_nth by exact Hi. reflexivity.
Qed.

Lemma nth_map_lt {A B} (f : A -> B) (l : list A) (d : B) (d' : A) (i : nat) :
  i < length l -> nth i (map f l) d = f (nth i l d').
Proof.
  intros Hi. rewrite (nth_indep _ d (f d')) by now rewrite length_map.
  apply map_nth.
Qed.

Lemma length_tabulate {A} (n : nat) (f : nat -> A) : length (tabulate n f) = n.
Proof. unfold tabulate. now rewrite length_map, length_seq. Qed.

Lemma filter_seq_above (a n i : nat) :
  i < a -> filter (fun k => k =? i) (seq a n) = [].
Proof.
  revert a. induction n as [|n IH]; intros a Ha; simpl; [reflexivity|].
  destruct (Nat.eqb_spec a i) as [->|_]; [lia|].
  apply IH. lia.
Qed.

Lemma filter_seq_eqb (a n i : nat) :
  a <= i < a + n -> filter (fun k => k =? i) (seq a n) = [i].
Proof.
  revert a. induction n as [|n IH]; intros a Ha; simpl; [lia|].
  destruct (Nat.eqb_spec a i) as [->|Hne].
  - now rewrite filter_seq_above by lia.
  - apply IH. lia.
Qed.

Lemma filter_map_comm {A B} (p : B -> bool) (f : A -> B) (l : list A) :
  filter p (map f l) = map f (filter (fun a => p (f a)) l).
Proof.
  induction l as [|a l IH]; simpl; [reflexivity|].
  destruct (p (f a)); simpl; now rewrite IH.
Qed.

Lemma filter_flat_map {A B} (p : B -> bool) (g : A -> list B) (l : list A) :
  filter p (flat_map g l) = flat_map (fun a => filter p (g a)) l.
Proof.
  induction l as [|a l IH]; simpl; [reflexivity|].
  now rewrite filter_app, IH.
Qed.

Lemma map_flat_map {A B C} (f : B -> C) (g : A -> list B) (l : list A) :
  map f (flat_map g l) = flat_map (fun a => map f (g a)) l.
Proof.
  induction l as [|a l IH]; simpl; [reflexivity|].
  now rewrite map_app, IH.
Qed.

Lemma flat_map_nil {A B} (g : A -> list B) (l : list A) :
  (forall a, In a l -> g a = []) -> flat_map g l = [].
Proof.
  induction l as [|a l IH]; simpl; intros Hg; [reflexivity|].
  rewrite Hg by now left. apply IH. intros b Hb. apply Hg. now right.
Qed.

(** A list without repetition mapped to lists of which only the one at
    [a] is kept. *)
Lemma flat_map_single {A B} (g : A -> list B) (l : list A) (a : A) :
  NoDup l -> In a l ->
  (forall b, In b l -> b <> a -> g b = []) ->
  flat_map g l = g a.
Proof.
  induction l as [|x l IH]; simpl; intros Hnd Hin Hg; [contradiction|].
  inversion Hnd as [|? ? Hx Hnd']; subst.
  destruct Hin as [->|Hin].
  - rewrite (flat_map_nil g l), app_nil_r; [reflexivity|].
    intros b Hb. apply Hg; [now right|]. intros ->. contradiction.
  - rewrite (Hg x), IH; simpl; auto.
    intros ->. contradiction.
Qed.

Lemma NoDup_positions (n : nat) : NoDup (positions n).
Proof.
  unfold positions.
  assert (Hgen : forall l : list nat, NoDup l ->
            NoDup (flat_map (fun i : nat => map (pair i) (seq 0 n)) l)).
  { induction l as [|i l IH]; simpl; intros Hnd; [constructor|].
    inversion Hnd as [|? ? Hi Hnd']; subst.
    apply NoDup_app.
    - apply Injective_map_NoDup; [|apply seq_NoDup].
      intros x y Hxy. now inversion Hxy.
    - now apply IH.
    - intros p Hp Hq. apply in_map_iff in Hp as (j & <- & _).
      apply in_flat_map in Hq as (i' & Hi' & Hq).
      apply in_map_iff in Hq as (j' & Heq & _).
      inversion Heq; subst. contradiction. }
  apply Hgen, seq_NoDup.
Qed.

Lemma in_positions (n i j : nat) : In (i, j) (positions n) <-> i < n /\ j < n.
Proof.
  unfold positions. rewrite in_flat_map. split.
  - intros (i' & Hi' & Hp). apply in_map_iff in Hp as (j' & Heq & Hj').
    inversion Heq; subst. apply in_seq in Hi', Hj'. lia.
  - intros [Hi Hj]. exists i. split; [apply in_seq; lia|].
    apply in_map, in_seq. lia.
Qed.

(** ** Arithmetic and sums *)

Section Sums.

Context {F : Type} `{Numeric F}.

Lemma add_0_r (x : F) : add x zero = x.
Proof. now rewrite add_comm, add_0_l. Qed.

Lemma mul_1_r (x : F) : mul x one = x.
Proof. now rewrite mul_comm, mul_1_l. Qed.

Lemma mul_finite_r (x y : F) : is_finite (mul x y) = true -> is_finite y = true.
Proof. rewrite mul_comm. apply mul_finite. Qed.

Lemma fsum_app (l1 l2 : list F) : fsum (l1 ++ l2) = add (fsum l1) (fsum l2).
Proof.
  induction l1 as [|x l1 IH]; simpl.
  - now rewrite add_0_l.
  - now rewrite IH, add_assoc.
Qed.

Lemma fsum_zeros {A} (l : list A) : fsum (map (fun _ => zero) l) = zero.
Proof. induction l as [|a l IH]; simpl; [reflexivity|]. now rewrite IH, add_0_l. Qed.

(** Adding [v] to the summand at [c]. *)
Lemma fsum_bump (g : nat -> F) (v : F) (c : nat) (l : list nat) :
  NoDup l -> In c l ->
  fsum (map (fun j => if c =? j then add v (g j) else g j) l)
  = add v (fsum (map g l)).
Proof.
  induction l as [|x l IH]; simpl; intros Hnd Hin; [contradiction|].
  inversion Hnd as [|? ? Hx Hnd']; subst.
  destruct (Nat.eqb_spec c x) as [->|Hne].
  - rewrite <- add_assoc.
    rewrite (map_ext_in _ g); [reflexivity|].
    intros j Hj.
    destruct (Nat.eqb_spec x j) as [->|_]; [contradiction | reflexivity].
  - destruct Hin as [->|Hin]; [congruence|].
    rewrite IH by assumption.
    rewrite !add_assoc. f_equal. apply add_comm.
Qed.

End Sums.

(** ** Stored entries of sparse matrices *)

Section Entries.

Context {F : Type} `{Numeric F}.

Implicit Types (es : list (entry F)) (e : entry F).

Lemma at_pos_true i j e : at_pos i j e = true <-> fst e = (i, j).
Proof.
  destruct e as [[r c] v]. unfold at_pos, in_row, in_col, e_row, e_col. simpl.
  rewrite andb_true_iff, !Nat.eqb_eq. split; [intros []; congruence|].
  intros Heq. now inversion Heq.
Qed.

Lemma at_pos_here i j (v : F) : at_pos i j (i, j, v) = true.
Proof. now apply at_pos_true. Qed.

Lemma at_pos_elsewhere i j (p : nat * nat) (v : F) :
  p <> (i, j) -> at_pos i j (p, v) = false.
Proof.
  intros Hne. destruct (at_pos i j (p, v)) eqn:E; [|reflexivity].
  apply at_pos_true in E. contradiction.
Qed.

Lemma filter_none {A} (p : A -> bool) (l : list A) :
  (forall a, In a l -> p a = false) -> filter p l = [].
Proof.
  induction l as [|a l IH]; simpl; intros Hp; [reflexivity|].
  rewrite Hp by now left. apply IH. intros b Hb. apply Hp. now right.
Qed.

Lemma sp_entry_app es1 es2 i j :
  sp_entry (es1 ++ es2) i j = add (sp_entry es1 i j) (sp_entry es2 i j).
Proof. unfold sp_entry. now rewrite filter_app, map_app, fsum_app. Qed.

Lemma stored_filter es i j :
  stored es i j = match filter (at_pos i j) es with [] => false | _ => true end.
Proof.
  unfold stored. induction es as [|e es IH]; simpl; [reflexivity|].
  destruct (at_pos i j e); simpl; [reflexivity | exact IH].
Qed.

Lemma filter_cells (f : nat * nat -> option F) n i j :
  i < n -> j < n ->
  filter (at_pos i j) (flat_map (cell f) (positions n)) = cell f (i, j).
Proof.
  intros Hi Hj. rewrite filter_flat_map.
  rewrite (@flat_map_single _ _ _ (positions n) (i, j)).
  - unfold cell. destruct (f (i, j)); simpl; [|reflexivity].
    now rewrite at_pos_here.
  - apply NoDup_positions.
  - now apply in_positions.
  - intros p _ Hne. unfold cell. destruct (f p); simpl; [|reflexivity].
    now rewrite at_pos_elsewhere.
Qed.

Lemma canonical_cell_cells (f : nat * nat -> option F) n p :
  In p (positions n) ->
  canonical_cell (flat_map (cell f) (positions n)) p = cell f p.
Proof.
  destruct p as [i j]. intros Hp. apply in_positions in Hp as [Hi Hj].
  unfold canonical_cell, sp_entry. rewrite stored_filter. simpl.
  rewrite filter_cells by assumption.
  unfold cell. destruct (f (i, j)); simpl; [|reflexivity].
  now rewrite add_0_r.
Qed.

Lemma flat_map_ext_in {A B} (g1 g2 : A -> list B) (l : list A) :
  (forall a, In a l -> g1 a = g2 a) -> flat_map g1 l = flat_map g2 l.
Proof.
  induction l as [|a l IH]; simpl; intros Hg; [reflexivity|].
  rewrite Hg by now left. f_equal. apply IH. intros b Hb. apply Hg. now right.
Qed.

(** Putting a canonical list in canonical form changes nothing. *)
Lemma canonical_entries_fixed n es :
  is_canonical n es -> canonical_entries n es = es.
Proof.
  intros [f ->]. unfold canonical_entries.
  apply flat_map_ext_in. intros p Hp. now apply canonical_cell_cells.
Qed.

Lemma is_canonical_canonical_entries n es :
  is_canonical n (canonical_entries n es).
Proof.
  exists (fun p => if stored es (fst p) (snd p)
                   then Some (sp_entry es (fst p) (snd p)) else None).
  unfold canonical_entries. apply flat_map_ext. intros p.
  unfold canonical_cell, cell. now destruct (stored es (fst p) (snd p)).
Qed.

Lemma is_canonical_filter n (q : entry F -> bool) es :
  is_canonical n es -> is_canonical n (filter q es).
Proof.
  intros [f ->].
  exists (fun p => match f p with
                   | Some v => if q (p, v) then Some v else None
                   | None => None
                   end).
  rewrite filter_flat_map. apply flat_map_ext. intros p.
  unfold cell. destruct (f p) as [v|]; simpl; [|reflexivity].
  now destruct (q (p, v)).
Qed.

Lemma is_canonical_map n (g : entry F -> F) es :
  is_canonical n es -> is_canonical n (map (fun e => (fst e, g e)) es).
Proof.
  intros [f ->].
  exists (fun p => match f p with
                   | Some v => Some (g (p, v))
                   | None => None
                   end).
  rewrite map_flat_map. apply flat_map_ext. intros p.
  unfold cell. now destruct (f p).
Qed.

Lemma is_canonical_bounds n es e :
  is_canonical n es -> In e es -> e_row e < n /\ e_col e < n.
Proof.
  intros [f ->] He. apply in_flat_map in He as (p & Hp & He).
  unfold cell in He. destruct (f p); [|contradiction].
  destruct He as [<-|[]]. destruct p as [i j].
  now apply in_positions in Hp.
Qed.

(** Canonical form keeps the value at every position of the matrix. *)
Lemma sp_entry_canonical n es i j :
  i < n -> j < n -> sp_entry (canonical_entries n es) i j = sp_entry es i j.
Proof.
  intros Hi Hj.
  destruct (is_canonical_canonical_entries n es) as [f Hf].
  unfold sp_entry at 1.
  unfold canonical_entries. rewrite filter_flat_map.
  rewrite (@flat_map_single _ _ _ (positions n) (i, j)).
  - unfold canonical_cell. simpl. rewrite stored_filter.
    unfold sp_entry.
    destruct (filter (at_pos i j) es) eqn:E; simpl; [reflexivity|].
    rewrite at_pos_here. simpl. now rewrite add_0_r.
  - apply NoDup_positions.
  - now apply in_positions.
  - intros p _ Hne. unfold canonical_cell.
    destruct (stored es (fst p) (snd p)); simpl; [|reflexivity].
    now rewrite at_pos_elsewhere.
Qed.

(** Dropping stored zeros keeps the value at every position. *)
Lemma sp_entry_nonzero es i j :
  sp_entry (filter nonzero_entry es) i j = sp_entry es i j.
Proof.
  unfold sp_entry. induction es as [|e es IH]; simpl; [reflexivity|].
  unfold nonzero_entry at 1.
  destruct (is_zero (e_val e)) eqn:Ez; simpl.
  - apply is_zero_spec in Ez.
    destruct (at_pos i j e); simpl; [|exact IH].
    now rewrite Ez, add_0_l.
  - destruct (at_pos i j e); simpl; [|exact IH].
    now rewrite IH.
Qed.

(** The entries of a diagonal matrix. *)
Lemma filter_at_pos_diag (v : nat -> F) n i j :
  i < n -> j < n ->
  filter (at_pos i j) (map (fun k => (k, k, v k)) (seq 0 n))
  = if i =? j then [(i, i, v i)] else [].
Proof.
  intros Hi Hj. rewrite filter_map_comm.
  destruct (Nat.eqb_spec i j) as [<-|Hne].
  - rewrite (filter_ext _ (fun k => k =? i)).
    + now rewrite filter_seq_eqb by lia.
    + intros k. unfold at_pos, in_row, in_col, e_row, e_col. simpl.
      now destruct (k =? i).
  - rewrite filter_none; [reflexivity|].
    intros k _. unfold at_pos, in_row, in_col, e_row, e_col. simpl.
    destruct (Nat.eqb_spec k i), (Nat.eqb_spec k j); simpl; congruence.
Qed.

Lemma filter_in_row_diag (v : nat -> F) n i :
  i < n ->
  filter (in_row i) (map (fun k => (k, k, v k)) (seq 0 n)) = [(i, i, v i)].
Proof.
  intros Hi. rewrite filter_map_comm.
  rewrite (filter_ext _ (fun k => k =? i)) by reflexivity.
  now rewrite filter_seq_eqb by lia.
Qed.

Lemma filter_in_col_diag (v : nat -> F) n j :
  j < n ->
  filter (in_col j) (map (fun k => (k, k, v k)) (seq 0 n)) = [(j, j, v j)].
Proof.
  intros Hj. rewrite filter_map_comm.
  rewrite (filter_ext _ (fun k => k =? j)) by reflexivity.
  now rewrite filter_seq_eqb by lia.
Qed.

Lemma filter_filter_swap {A} (p q : A -> bool) (l : list A) :
  filter p (filter q l) = filter q (filter p l).
Proof.
  induction l as [|x l IH]; simpl; [reflexivity|].
  destruct (p x) eqn:Ep, (q x) eqn:Eq; simpl; rewrite ?Ep, ?Eq, IH; reflexivity.
Qed.

(** [selfloop * sp.eye(n)] has [selfloop] on the diagonal. *)
Lemma sp_entry_selfloops (s : F) n i j :
  i < n -> j < n ->
  sp_entry (sp_entries (sp_scale s (sp_eye n))) i j
  = if i =? j then s else zero.
Proof.
  intros Hi Hj. unfold sp_entry, sp_scale, sp_eye. simpl.
  rewrite map_map. unfold e_val. simpl.
  rewrite (filter_at_pos_diag (fun _ => mul s one)) by assumption.
  destruct (i =? j); simpl; [|reflexivity].
  now rewrite add_0_r, mul_1_r.
Qed.

Lemma sp_entry_cons e es i j :
  sp_entry (e :: es) i j
  = if at_pos i j e then add (e_val e) (sp_entry es i j) else sp_entry es i j.
Proof. unfold sp_entry. simpl. now destruct (at_pos i j e). Qed.

(** A row sum over the stored entries is the sum of the row's values. *)
Lemma row_sum_entries es n i :
  (forall e, In e es -> e_col e < n) ->
  fsum (map e_val (filter (in_row i) es))
  = fsum (map (fun j => sp_entry es i j) (seq 0 n)).
Proof.
  induction es as [|e es IH]; intros Hb.
  - simpl. unfold sp_entry. simpl. now rewrite fsum_zeros.
  - assert (IH' := IH (fun e' He' => Hb e' (or_intror He'))).
    assert (Hc := Hb e (or_introl eq_refl)).
    rewrite (map_ext _ _ (sp_entry_cons e es i)).
    unfold at_pos. simpl. destruct (in_row i e); simpl.
    + rewrite IH'.
      rewrite <- (fsum_bump (fun j => sp_entry es i j) (e_val e) (e_col e)).
      * reflexivity.
      * apply seq_NoDup.
      * apply in_seq. lia.
    + exact IH'.
Qed.

End Entries.

(** ** The value of [normalize] *)

Section Values.

Context {F : Type} `{Numeric F}.

Implicit Types (a b : matrix F) (s : F) (dp : list F).

Lemma tabulate_ext {A} (n : nat) (f g : nat -> A) :
  (forall i, i < n -> f i = g i) -> tabulate n f = tabulate n g.
Proof.
  intros Hfg. unfold tabulate. apply map_ext_in.
  intros i Hi. apply Hfg. apply in_seq in Hi. lia.
Qed.

Lemma dense_entry_tabulate n (f : nat -> nat -> F) i j :
  i < n -> j < n ->
  dense_entry (tabulate n (fun i => tabulate n (f i))) i j = f i j.
Proof.
  intros Hi Hj. unfold dense_entry.
  now rewrite !nth_tabulate by assumption.
Qed.

Lemma mat_add_selfloops s a :
  wf_matrix a = true ->
  mat_add a (selfloops s (dim a)) = Ok (augmented_matrix s a).
Proof.
  destruct a as [m|k rows]; simpl; intros Hwf.
  - unfold sp_add. simpl. now rewrite Nat.eqb_refl.
  - unfold dense_add_sp. simpl. rewrite Nat.eqb_refl, Hwf. simpl.
    do 2 f_equal. unfold dense_sum.
    apply tabulate_ext. intros i Hi. apply tabulate_ext. intros j Hj.
    unfold augmented. simpl. f_equal.
    now apply sp_entry_selfloops.
Qed.

Lemma dim_augmented_matrix s a : dim (augmented_matrix s a) = dim a.
Proof.
  destruct a as [m|k rows]; simpl; [reflexivity|].
  unfold dense_sum. apply length_tabulate.
Qed.

Lemma isspmatrix_augmented_matrix s a :
  isspmatrix (augmented_matrix s a) = isspmatrix a.
Proof. now destruct a. Qed.

Lemma sparse_sum_canonical s (m : spmatrix F) :
  is_canonical (sp_dim m) (sp_entries (sparse_sum s m)).
Proof. apply is_canonical_filter, is_canonical_canonical_entries. Qed.

(** The sum has the entries of [A + selfloop * I]. *)
Lemma mat_entry_augmented_matrix s a i j :
  i < dim a -> j < dim a ->
  mat_entry (augmented_matrix s a) i j = augmented s a i j.
Proof.
  intros Hi Hj. destruct a as [m|k rows]; simpl in *.
  - rewrite sp_entry_nonzero, sp_entry_canonical, sp_entry_app by assumption.
    unfold augmented. simpl. f_equal. now apply sp_entry_selfloops.
  - unfold dense_sum. now rewrite dense_entry_tabulate.
Qed.

(** A position of the sparse sum is stored when its value is not zero. *)
Lemma stored_sparse_sum s (m : spmatrix F) i j :
  i < sp_dim m -> j < sp_dim m ->
  stored (sp_entries (sparse_sum s m)) i j
  = negb (is_zero (augmented s (Sparse m) i j)).
Proof.
  intros Hi Hj.
  rewrite <- (mat_entry_augmented_matrix s (Sparse m)) by assumption.
  cbn [augmented_matrix mat_entry].
  destruct (sparse_sum_canonical s m) as [f Hf].
  rewrite stored_filter. unfold sp_entry.
  assert (Hin : forall e, In e (filter (at_pos i j) (sp_entries (sparse_sum s m)))
                          -> is_zero (e_val e) = false).
  { intros e He. apply filter_In in He as [He _].
    apply filter_In in He as [_ He].
    unfold nonzero_entry in He. now destruct (is_zero (e_val e)). }
  rewrite Hf in *. rewrite filter_cells in * by assumption.
  unfold cell in *. destruct (f (i, j)) as [v|]; simpl.
  - rewrite add_0_r. change v with (e_val (i, j, v)) at 1.
    now rewrite Hin by now left.
  - now rewrite (proj2 (is_zero_spec zero)).
Qed.

(** The degree vector computed by [adj.sum(1).A1]. *)
Lemma row_sums_augmented_matrix s a :
  row_sums (augmented_matrix s a) = tabulate (dim a) (degree s a).
Proof.
  destruct a as [m|k rows]; simpl.
  - apply tabulate_ext. intros i Hi.
    rewrite (row_sum_entries _ (sp_dim m) i).
    + unfold degree. simpl. apply f_equal, map_ext_in. intros j Hj.
      apply in_seq in Hj.
      apply (mat_entry_augmented_matrix s (Sparse m)); simpl; lia.
    + intros e He.
      now apply (is_canonical_bounds _ _ _ (sparse_sum_canonical s m)) in He.
  - unfold dense_sum, tabulate at 1. rewrite map_map.
    apply map_ext. intros i. reflexivity.
Qed.

(** *** The scaling of the stored entries *)

Lemma rmapM_ok {A B} (f : A -> result B) (g : A -> B) (l : list A) :
  (forall x, In x l -> f x = Ok (g x)) -> rmapM f l = Ok (map g l).
Proof.
  induction l as [|x l IH]; simpl; intros Hf; [reflexivity|].
  rewrite Hf by now left. simpl.
  rewrite IH; [reflexivity|]. intros y Hy. apply Hf. now right.
Qed.

Lemma np_take_ok dp (idx : list nat) :
  (forall i, In i idx -> i < length dp) ->
  np_take dp idx = Ok (map (fun i => nth i dp zero) idx).
Proof.
  intros Hb. apply rmapM_ok. intros i Hi.
  now rewrite (nth_error_nth' dp zero (Hb i Hi)).
Qed.

Lemma np_broadcast2_same {A B} (xs : list A) (ys : list B) :
  length xs = length ys -> np_broadcast2 xs ys = Ok (combine xs ys).
Proof. intros Hl. unfold np_broadcast2. now rewrite Hl, Nat.eqb_refl. Qed.

Lemma combine_map_map {A B C} (f : A -> B) (g : A -> C) (l : list A) :
  combine (map f l) (map g l) = map (fun x => (f x, g x)) l.
Proof. induction l as [|x l IH]; simpl; [reflexivity|]. now rewrite IH. Qed.

Lemma combine_map_r {A B} (g : A -> B) (l : list A) :
  combine l (map g l) = map (fun x => (x, g x)) l.
Proof. induction l as [|x l IH]; simpl; [reflexivity|]. now rewrite IH. Qed.

Lemma np_mul_maps {A} (f g : A -> F) (l : list A) :
  np_mul (map f l) (map g l) = Ok (map (fun x => mul (f x) (g x)) l).
Proof.
  unfold np_mul. rewrite np_broadcast2_same by now rewrite !length_map.
  simpl. now rewrite combine_map_map, map_map.
Qed.

Lemma scale_entries_ok dp (m : spmatrix F) :
  (forall e, In e (sp_entries m) ->
             e_row e < length dp /\ e_col e < length dp) ->
  scale_entries dp m = Ok (map (scale_entry dp) (sp_entries m)).
Proof.
  intros Hb. unfold scale_entries.
  rewrite !np_take_ok.
  - simpl. rewrite !map_map, np_mul_maps. simpl. now rewrite np_mul_maps.
  - intros i Hi. apply in_map_iff in Hi as (e & <- & He). now apply Hb.
  - intros i Hi. apply in_map_iff in Hi as (e & <- & He). now apply Hb.
Qed.

Lemma with_data_map (m : spmatrix F) (g : entry F -> F) :
  with_data m (map g (sp_entries m))
  = SpMatrix (sp_fmt m) (sp_dim m) (map (fun e => (fst e, g e)) (sp_entries m)).
Proof. unfold with_data. now rewrite combine_map_r, map_map. Qed.

Lemma sparse_branch s (m : spmatrix F) dp :
  sp_dim m <= length dp ->
  (let? new_data := scale_entries dp (sparse_sum s m) in
   Ok (Sparse (as_csr (with_data (as_coo (sparse_sum s m)) new_data))))
  = Ok (Sparse (sparse_result s m dp)).
Proof.
  intros Hl. rewrite scale_entries_ok.
  - simpl rbind. change (sp_entries (sparse_sum s m))
      with (sp_entries (as_coo (sparse_sum s m))).
    rewrite with_data_map. unfold as_csr, sparse_result. simpl.
    rewrite canonical_entries_fixed; [reflexivity|].
    apply is_canonical_map. apply (sparse_sum_canonical s m).
  - intros e He.
    apply (is_canonical_bounds _ _ _ (sparse_sum_canonical s m)) in He. lia.
Qed.

(** The products with the diagonal matrix of the degree powers: a zero
    on the diagonal is left out, and its row, or column, of the product
    is zero. *)
Lemma sp_matmul_dense_diags dp (rows : list (list F)) :
  length dp = length rows ->
  sp_matmul_dense (sp_diags dp) rows
  = Ok (tabulate (length rows) (fun i =>
          tabulate (length rows) (fun j =>
            if is_zero (nth i dp zero) then zero
            else mul (nth i dp zero) (dense_entry rows i j)))).
Proof.
  intros Hl. unfold sp_matmul_dense, product_entries. simpl.
  rewrite (proj2 (Nat.eqb_eq _ _) Hl).
  f_equal. apply tabulate_ext. intros i Hi. apply tabulate_ext. intros j Hj.
  rewrite filter_filter_swap.
  rewrite (filter_in_row_diag (fun k => nth k dp zero)) by lia.
  cbn [filter]. unfold nonzero_entry, e_val. cbn [snd].
  destruct (is_zero (nth i dp zero)); simpl; [reflexivity | apply add_0_r].
Qed.

Lemma dense_matmul_sp_diags (rows : list (list F)) dp :
  length rows = length dp ->
  dense_matmul_sp rows (sp_diags dp)
  = Ok (tabulate (length rows) (fun i =>
          tabulate (length rows) (fun j =>
            if is_zero (nth j dp zero) then zero
            else mul (dense_entry rows i j) (nth j dp zero)))).
Proof.
  intros Hl. unfold dense_matmul_sp, product_entries. simpl.
  rewrite (proj2 (Nat.eqb_eq _ _) Hl).
  f_equal. apply tabulate_ext. intros i Hi. apply tabulate_ext. intros j Hj.
  rewrite filter_filter_swap.
  rewrite (filter_in_col_diag (fun k => nth k dp zero)) by lia.
  cbn [filter]. unfold nonzero_entry, e_val. cbn [snd].
  destruct (is_zero (nth j dp zero)); simpl; [reflexivity | apply add_0_r].
Qed.

Lemma dense_branch s (rows : list (list F)) dp :
  length dp = length rows ->
  (let? half := sp_matmul_dense (sp_diags dp) (dense_sum s rows) in
   let? full := dense_matmul_sp half (sp_diags dp) in
   Ok (Dense NdArray full))
  = Ok (Dense NdArray (dense_result s rows dp)).
Proof.
  intros Hl.
  assert (Hs : length (dense_sum s rows) = length rows)
    by apply length_tabulate.
  rewrite sp_matmul_dense_diags by congruence. simpl rbind.
  rewrite dense_matmul_sp_diags by (rewrite length_tabulate; congruence).
  simpl rbind. rewrite length_tabulate, Hs. do 2 f_equal.
  apply tabulate_ext. intros i Hi. apply tabulate_ext. intros j Hj.
  rewrite dense_entry_tabulate by assumption.
  unfold dense_sum. now rewrite dense_entry_tabulate.
Qed.

(** With rate [None] the value is [A + selfloop * I]. *)
Lemma normalize_value_none s a :
  wf_matrix a = true ->
  normalize_value s a RNone = Ok (augmented_matrix s a).
Proof.
  intros Hwf. unfold normalize_value.
  change (sp_scale s (sp_eye (dim a))) with (selfloops s (dim a)).
  now rewrite mat_add_selfloops.
Qed.

(** With a rate that [np.power] accepts the value is the scaled matrix. *)
Lemma normalize_value_scaled s a r dp :
  wf_matrix a = true ->
  np_power (tabulate (dim a) (degree s a)) r = Ok dp ->
  length dp = dim a ->
  normalize_value s a r = Ok (scaled_matrix s a dp).
Proof.
  intros Hwf Hp Hl. unfold normalize_value.
  change (sp_scale s (sp_eye (dim a))) with (selfloops s (dim a)).
  rewrite mat_add_selfloops by assumption. simpl rbind.
  rewrite row_sums_augmented_matrix.
  destruct r as [|x|l]; [discriminate Hp| |];
    rewrite Hp; simpl rbind;
    (destruct a as [m|k rows]; simpl augmented_matrix; cbv iota;
     [apply sparse_branch; simpl in Hl; lia | now apply dense_branch]).
Qed.

(** The value at a position of a canonical list whose values are mapped. *)
Lemma sp_entry_map_canonical n (es : list (entry F)) (g : entry F -> F) i j :
  is_canonical n es -> i < n -> j < n ->
  sp_entry (map (fun e => (fst e, g e)) es) i j
  = if stored es i j then g (i, j, sp_entry es i j) else zero.
Proof.
  intros [f ->] Hi Hj. rewrite stored_filter. unfold sp_entry.
  rewrite filter_map_comm.
  rewrite (filter_ext _ (at_pos i j)) by (intros [[? ?] ?]; reflexivity).
  rewrite filter_cells by assumption.
  unfold cell. destruct (f (i, j)) as [v|]; simpl; [|reflexivity].
  now rewrite !add_0_r.
Qed.

(** The entries of the scaled matrix. *)
Lemma mat_entry_scaled_matrix s a dp i j :
  i < dim a -> j < dim a ->
  mat_entry (scaled_matrix s a dp) i j
  = scaled_entry (isspmatrix a) (nth i dp zero) (augmented s a i j)
      (nth j dp zero).
Proof.
  intros Hi Hj. destruct a as [m|k rows]; simpl in Hi, Hj.
  - cbn [scaled_matrix mat_entry isspmatrix sparse_result sp_entries].
    unfold scaled_entry.
    rewrite (sp_entry_map_canonical (sp_dim m))
      by (assumption || apply sparse_sum_canonical).
    rewrite stored_sparse_sum by assumption.
    destruct (is_zero (augmented s (Sparse m) i j)); simpl; [reflexivity|].
    unfold scale_entry, e_row, e_col, e_val. simpl fst. simpl snd.
    now rewrite <- (mat_entry_augmented_matrix s (Sparse m)) by assumption.
  - cbn [scaled_matrix mat_entry isspmatrix].
    unfold dense_result. now rewrite dense_entry_tabulate.
Qed.

Lemma dim_scaled_matrix s a dp : dim (scaled_matrix s a dp) = dim a.
Proof.
  destruct a as [m|k rows]; simpl; [reflexivity|].
  unfold dense_result. apply length_tabulate.
Qed.

Lemma nth_degree_power s a r i :
  i < dim a -> nth i (degree_power s a r) zero = power (degree s a i) r.
Proof.
  intros Hi. unfold degree_power, tabulate. rewrite map_map.
  now apply (nth_tabulate _ (fun i => power (degree s a i) r)).
Qed.

Lemma length_degree_power s a r : length (degree_power s a r) = dim a.
Proof. unfold degree_power. now rewrite length_map, length_tabulate. Qed.

Lemma normalize_value_scalar s a r :
  wf_matrix a = true ->
  normalize_value s a (RScalar r)
  = Ok (scaled_matrix s a (degree_power s a r)).
Proof.
  intros Hwf. apply normalize_value_scaled; try assumption.
  - reflexivity.
  - apply length_degree_power.
Qed.

End Values.

(** ** [normalize] on the heap *)

Section Heap.

Context {F : Type} `{Numeric F}.

Implicit Types (h : heap F) (a : matrix F) (s : F).

Lemma nth_error_new h (x : matrix F) : nth_error (h ++ [x]) (length h) = Some x.
Proof. rewrite nth_error_app2 by lia. now rewrite Nat.sub_diag. Qed.

Lemma nth_error_old h (ext : heap F) l x :
  nth_error h l = Some x -> nth_error (h ++ ext) l = Some x.
Proof.
  intros Hl. rewrite nth_error_app1; [exact Hl|].
  apply nth_error_Some. congruence.
Qed.

Lemma extends_refl h : extends h h.
Proof. exists []. now rewrite app_nil_r. Qed.

Lemma extends_trans h1 h2 h3 : extends h1 h2 -> extends h2 h3 -> extends h1 h3.
Proof. intros [e1 ->] [e2 ->]. exists (e1 ++ e2). now rewrite app_assoc. Qed.

Lemma extends_alloc h x : extends h (h ++ [x]).
Proof. now exists [x]. Qed.

Lemma extends_lookup h h' l x :
  extends h h' -> nth_error h l = Some x -> nth_error h' l = Some x.
Proof. intros [ext ->]. apply nth_error_old. Qed.

Lemma extends_length h h' : extends h h' -> length h <= length h'.
Proof. intros [ext ->]. rewrite length_app. lia. Qed.

Lemma update_app_r (h ext : heap F) l x :
  length h <= l -> update (h ++ ext) l x = h ++ update ext (l - length h) x.
Proof.
  revert l. induction h as [|z h IH]; simpl; intros l Hl.
  - now rewrite Nat.sub_0_r.
  - destruct l as [|l]; [lia|]. simpl. rewrite IH by lia. reflexivity.
Qed.

Lemma extends_update h h' l x :
  extends h h' -> length h <= l -> extends h (update h' l x).
Proof. intros [ext ->] Hl. rewrite update_app_r by exact Hl. now eexists. Qed.

Lemma nth_error_update h l x y :
  nth_error h l = Some y -> nth_error (update h l x) l = Some x.
Proof.
  revert l. induction h as [|z h IH]; intros [|l]; simpl; try discriminate.
  - reflexivity.
  - apply IH.
Qed.

Lemma length_update h l x : length (update h l x) = length h.
Proof.
  revert l. induction h as [|z h IH]; intros [|l]; simpl; try reflexivity.
  now rewrite IH.
Qed.

(** *** Running the operations *)

Lemma bind_ok {A B} (c : M A) (k : A -> M B) h h' x :
  c h = (h', Ok x) -> bind c k h = k x h'.
Proof. unfold bind. now intros ->. Qed.

Lemma bind_raise {A B} (c : M A) (k : A -> M B) h h' e :
  c h = (h', Raise e) -> bind c k h = (h', Raise e).
Proof. unfold bind. now intros ->. Qed.

Lemma bind_lift {A B} (x : result A) (k : A -> M B) h :
  bind (lift x) k h = match x with Ok v => k v h | Raise e => (h, Raise e) end.
Proof. unfold bind, lift. now destruct x. Qed.

Lemma deref_run h l a : nth_error h l = Some a -> deref l h = (h, Ok a).
Proof. unfold deref. now intros ->. Qed.

Lemma shape0_run h l a : nth_error h l = Some a -> shape0 l h = (h, Ok (dim a)).
Proof. intros Hl. unfold shape0. now rewrite (bind_ok _ _ _ _ _ (deref_run _ _ _ Hl)). Qed.

Lemma sum1_A1_run h l a :
  nth_error h l = Some a -> sum1_A1 l h = (h, Ok (row_sums a)).
Proof. intros Hl. unfold sum1_A1. now rewrite (bind_ok _ _ _ _ _ (deref_run _ _ _ Hl)). Qed.

Lemma py_add_run h l a (b : spmatrix F) :
  nth_error h l = Some a ->
  py_add l b h = match mat_add a b with
                 | Ok c => (h ++ [c], Ok (length h))
                 | Raise e => (h, Raise e)
                 end.
Proof.
  intros Hl. unfold py_add.
  rewrite (bind_ok _ _ _ _ _ (deref_run _ _ _ Hl)), bind_lift.
  now destruct (mat_add a b).
Qed.

Lemma sp_attr_run {A} (f : entry F -> A) h l (m : spmatrix F) :
  nth_error h l = Some (Sparse m) ->
  sp_attr f l h = (h, Ok (map f (sp_entries m))).
Proof. intros Hl. unfold sp_attr. now rewrite (bind_ok _ _ _ _ _ (deref_run _ _ _ Hl)). Qed.

Lemma set_data_run h l (m : spmatrix F) d :
  nth_error h l = Some (Sparse m) ->
  set_data l d h = (update h l (Sparse (with_data m d)), Ok tt).
Proof. intros Hl. unfold set_data. now rewrite (bind_ok _ _ _ _ _ (deref_run _ _ _ Hl)). Qed.

(** [tocoo] returns a COO object with the same entries: the object itself
    or a new one. *)
Lemma tocoo_spec h l (m : spmatrix F) :
  nth_error h l = Some (Sparse m) ->
  exists h' l',
    tocoo l h = (h', Ok l') /\ extends h h' /\
    nth_error h' l' = Some (Sparse (as_coo m)) /\ l <= l'.
Proof.
  intros Hl. unfold tocoo. rewrite (bind_ok _ _ _ _ _ (deref_run _ _ _ Hl)).
  assert (Hlt : l < length h) by (apply nth_error_Some; congruence).
  destruct (sp_fmt m) eqn:Efmt;
    try (exists (h ++ [Sparse (as_coo m)]), (length h);
         repeat split; [apply extends_alloc | apply nth_error_new | lia]).
  exists h, l. repeat split; [apply extends_refl | | lia].
  rewrite Hl. destruct m as [f n es]. simpl in Efmt. now subst f.
Qed.

Lemma tocsr_coo_run h l (m : spmatrix F) :
  nth_error h l = Some (Sparse m) -> sp_fmt m = COO ->
  tocsr l h = (h ++ [Sparse (as_csr m)], Ok (length h)).
Proof.
  intros Hl Hfmt. unfold tocsr.
  rewrite (bind_ok _ _ _ _ _ (deref_run _ _ _ Hl)). now rewrite Hfmt.
Qed.

Ltac raise_done :=
  do 2 eexists; split; [reflexivity|]; split;
  [ eauto using extends_refl, extends_alloc, extends_trans | reflexivity ].

(** [normalize] computes [normalize_value] of the object at [adj], puts
    the result in a new object and leaves the objects of the heap as they
    are. *)
Lemma normalize_refines s h adj a r :
  nth_error h adj = Some a ->
  exists h' res,
    normalize s adj r h = (h', res) /\ extends h h' /\
    match normalize_value s a r with
    | Ok v => exists l, res = Ok l /\ nth_error h' l = Some v /\ length h <= l
    | Raise e => res = Raise e
    end.
Proof.
  intros Ha. unfold normalize, normalize_value.
  rewrite (bind_ok _ _ _ _ _ (shape0_run _ _ _ Ha)).
  unfold bind at 1. rewrite (py_add_run _ _ _ _ Ha).
  destruct (mat_add a (sp_scale s (sp_eye (dim a)))) as [b|e]; cbn [rbind].
  2: { do 2 eexists. split; [reflexivity|]. split; [apply extends_refl | reflexivity]. }
  assert (Hb : nth_error (h ++ [b]) (length h) = Some b) by apply nth_error_new.
  assert (Hext1 : extends h (h ++ [b])) by apply extends_alloc.
  destruct r as [|x|xs].
  { do 2 eexists. split; [reflexivity|]. split; [exact Hext1|].
    eexists. split; [reflexivity|]. split; [exact Hb | lia]. }
  all: rewrite (bind_ok _ _ _ _ _ (sum1_A1_run _ _ _ Hb)), bind_lift.
  all: match goal with |- context [np_power ?d ?r] =>
         destruct (np_power d r) as [dp|e]; cbn [rbind]; [|raise_done] end.
  all: rewrite (bind_ok _ _ _ _ _ (deref_run _ _ _ Hb)).
  all: destruct b as [sb|k rows].
  1, 3: destruct (tocoo_spec _ _ _ Hb) as (h2 & l2 & Hrun & Hext2 & Hl2 & Hle).
  1, 2: assert (Hext : extends h h2) by (eapply extends_trans; eassumption).
  1, 2: rewrite (bind_ok _ _ _ _ _ Hrun).
  1, 2: rewrite (bind_ok _ _ _ _ _ (sp_attr_run e_row _ _ _ Hl2)), bind_lift.
  1, 2: unfold scale_entries; cbn [as_coo sp_entries].
  1, 2: destruct (np_take dp (map e_row (sp_entries sb))) as [sr|e];
        cbn [rbind]; [|raise_done].
  1, 2: rewrite (bind_ok _ _ _ _ _ (sp_attr_run e_val _ _ _ Hl2)), bind_lift.
  1, 2: cbn [as_coo sp_entries].
  1, 2: destruct (np_mul sr (map e_val (sp_entries sb))) as [half|e];
        cbn [rbind]; [|raise_done].
  1, 2: rewrite (bind_ok _ _ _ _ _ (sp_attr_run e_col _ _ _ Hl2)), bind_lift.
  1, 2: cbn [as_coo sp_entries].
  1, 2: destruct (np_take dp (map e_col (sp_entries sb))) as [sc|e];
        cbn [rbind]; [|raise_done].
  1, 2: rewrite bind_lift.
  1, 2: destruct (np_mul half sc) as [new_data|e]; cbn [rbind]; [|raise_done].
  1, 2: rewrite (bind_ok _ _ _ _ _ (set_data_run _ _ _ new_data Hl2)).
  1, 2: rewrite (tocsr_coo_run _ _ (with_data (as_coo sb) new_data)
                   (nth_error_update _ _ _ _ Hl2) eq_refl).
  1, 2: do 2 eexists; split; [reflexivity|]; split;
        [ eapply extends_trans; [|apply extends_alloc];
          apply extends_update; [exact Hext | exact Hle]
        | eexists; split; [reflexivity|]; split;
          [ apply nth_error_new
          | rewrite length_update; apply extends_length in Hext; lia ] ].
  all: rewrite bind_lift.
  all: match goal with |- context [sp_matmul_dense ?d ?x] =>
         destruct (sp_matmul_dense d x) as [half|e]; cbn [rbind]; [|raise_done] end.
  all: rewrite bind_lift.
  all: match goal with |- context [dense_matmul_sp ?x ?d] =>
         destruct (dense_matmul_sp x d) as [full|e]; cbn [rbind]; [|raise_done] end.
  all: unfold alloc; do 2 eexists; split; [reflexivity|]; split;
       [ eapply extends_trans; [exact Hext1 | apply extends_alloc]
       | eexists; split; [reflexivity|]; split;
         [ apply nth_error_new | rewrite length_app; lia ] ].
Qed.

(** On a location that holds no object [normalize] raises at once. *)
Lemma normalize_dangling s h adj r :
  nth_error h adj = None -> normalize s adj r h = (h, Raise NameError).
Proof.
  intros Ha. unfold normalize, shape0.
  erewrite bind_raise; [reflexivity|].
  erewrite bind_raise; [reflexivity|].
  unfold deref. now rewrite Ha.
Qed.

(** Whatever it is called on, [normalize] only adds objects to the heap,
    and what it returns is one of the objects it added. *)
Lemma normalize_frame s h adj r :
  exists h' res,
    normalize s adj r h = (h', res) /\ extends h h' /\
    forall l, res = Ok l -> length h <= l < length h'.
Proof.
  destruct (nth_error h adj) as [a|] eqn:Ha.
  - destruct (normalize_refines s h adj a r Ha) as (h' & res & Hrun & Hext & Hv).
    exists h', res. split; [exact Hrun|]. split; [exact Hext|].
    intros l Hres.
    destruct (normalize_value s a r); [|subst; discriminate].
    destruct Hv as (l' & -> & Hl' & Hle). inversion Hres; subst l'.
    split; [exact Hle|]. apply nth_error_Some. congruence.
  - exists h, (Raise NameError). split; [now apply normalize_dangling|].
    split; [apply extends_refl | discriminate].
Qed.

Lemma Forall2_holds_extends h h' ls vs :
  extends h h' -> Forall2 (holds h) ls vs -> Forall2 (holds h') ls vs.
Proof.
  intros Hext Hf. induction Hf; constructor; auto.
  eapply extends_lookup; eassumption.
Qed.

Lemma mapM_normalize_refines s locs avals :
  forall h rates,
    Forall2 (holds h) locs avals ->
    exists h' res,
      mapM (fun p => normalize s (fst p) (snd p)) (combine locs rates) h
      = (h', res) /\ extends h h' /\
      match normalize_values s (combine avals rates) with
      | Ok vs => exists ls, res = Ok ls /\ Forall2 (holds h') ls vs /\
                            Forall (fun l => length h <= l) ls
      | Raise e => res = Raise e
      end.
Proof.
  revert avals.
  induction locs as [|l locs IH]; intros avals h rates Hall;
    inversion Hall as [|? a ? avals' Hl Hlocs]; subst.
  - exists h, (Ok []). split; [reflexivity|]. split; [apply extends_refl|].
    exists []. repeat split; constructor.
  - destruct rates as [|r rates].
    + exists h, (Ok []). split; [reflexivity|]. split; [apply extends_refl|].
      exists []. repeat split; constructor.
    + cbn [combine mapM normalize_values rmapM fst snd].
      destruct (normalize_refines s h l a r Hl) as (h1 & res1 & Hrun1 & Hext1 & Hv1).
      destruct (normalize_value s a r) as [v|e]; cbn [rbind].
      2: { subst res1. exists h1, (Raise e).
           split; [|split; [exact Hext1 | reflexivity]].
           now apply bind_raise. }
      destruct Hv1 as (l1 & -> & Hl1 & Hle1).
      rewrite (bind_ok _ _ _ _ _ Hrun1).
      destruct (IH avals' h1 rates (Forall2_holds_extends _ _ _ _ Hext1 Hlocs))
        as (h2 & res2 & Hrun2 & Hext2 & Hv2).
      fold (normalize_values s (combine avals' rates)).
      destruct (normalize_values s (combine avals' rates)) as [vs|e]; cbn [rbind].
      2: { subst res2. exists h2, (Raise e).
           split; [|split; [eapply extends_trans; eassumption | reflexivity]].
           now apply bind_raise. }
      destruct Hv2 as (ls & -> & Hls & Hfresh).
      rewrite (bind_ok _ _ _ _ _ Hrun2).
      exists h2, (Ok (l1 :: ls)). split; [reflexivity|].
      split; [eapply extends_trans; eassumption|].
      exists (l1 :: ls). split; [reflexivity|]. split.
      * constructor; [eapply extends_lookup; eassumption | exact Hls].
      * constructor; [exact Hle1|].
        apply extends_length in Hext1.
        eapply Forall_impl; [|exact Hfresh]. simpl. intros; lia.
Qed.

Lemma mapM_normalize_frame s (items : list (loc * rate_arg F)) :
  forall h,
    exists h' res,
      mapM (fun p => normalize s (fst p) (snd p)) items h = (h', res) /\
      extends h h' /\
      forall ls, res = Ok ls -> Forall (fun l => length h <= l < length h') ls.
Proof.
  induction items as [|[l r] items IH]; intros h.
  - exists h, (Ok []). split; [reflexivity|]. split; [apply extends_refl|].
    intros ls Hls. inversion Hls. constructor.
  - cbn [mapM fst snd].
    destruct (normalize_frame s h l r) as (h1 & res1 & Hrun1 & Hext1 & Hf1).
    destruct res1 as [l1|e].
    2: { exists h1, (Raise e). split; [now apply bind_raise|].
         split; [exact Hext1 | discriminate]. }
    rewrite (bind_ok _ _ _ _ _ Hrun1).
    destruct (IH h1) as (h2 & res2 & Hrun2 & Hext2 & Hf2).
    destruct res2 as [ls|e].
    2: { exists h2, (Raise e). split; [now apply bind_raise|].
         split; [eapply extends_trans; eassumption | discriminate]. }
    rewrite (bind_ok _ _ _ _ _ Hrun2).
    exists h2, (Ok (l1 :: ls)). split; [reflexivity|].
    split; [eapply extends_trans; eassumption|].
    intros ls' Hls'. inversion Hls'; subst ls'.
    specialize (Hf1 l1 eq_refl). specialize (Hf2 ls eq_refl).
    apply extends_length in Hext1, Hext2.
    constructor; [lia|].
    eapply Forall_impl; [|exact Hf2]. simpl. intros; lia.
Qed.

End Heap.

(** ** Calls of [normalize_adj] *)

Section Calls.

Context {F : Type} `{Numeric F}.

Implicit Types (h : heap F) (a : matrix F) (s : F) (o : option F).

Lemma normalize_value_elem s a o :
  wf_matrix a = true ->
  normalize_value s a (rate_of_elem o) = Ok (output_value s a o).
Proof.
  intros Hwf. destruct o as [r|]; simpl.
  - now apply normalize_value_scalar.
  - now apply normalize_value_none.
Qed.

Lemma normalize_values_elems s (avals : list (matrix F)) :
  Forall (fun a => wf_matrix a = true) avals ->
  forall os,
    normalize_values s (combine avals (map rate_of_elem os))
    = Ok (map (fun q => output_value s (fst q) (snd q)) (combine avals os)).
Proof.
  induction 1 as [|a avals Hwf _ IH]; intros os; [reflexivity|].
  destruct os as [|o os]; [reflexivity|].
  unfold normalize_values in *. cbn [map combine rmapM fst snd].
  rewrite normalize_value_elem by exact Hwf. cbn [rbind].
  now rewrite IH.
Qed.

(** The effective rates are numbers or [None], one per matrix. *)
Lemma repeat_elems (rate : rate_arg F) k rates :
  repeat rate k = Ok rates ->
  exists os, rates = map rate_of_elem os /\ length os = k.
Proof.
  destruct rate as [|x|l]; simpl.
  - intros Heq. inversion Heq. exists (List.repeat None k).
    now rewrite map_repeat, repeat_length.
  - intros Heq. inversion Heq. exists (List.repeat (Some x) k).
    now rewrite map_repeat, repeat_length.
  - destruct (Nat.eqb_spec (length l) k) as [Hl|Hl].
    + intros Heq. inversion Heq. now exists l.
    + destruct l as [|x [|y l]]; try discriminate.
      intros Heq. inversion Heq. exists (List.repeat x k).
      now rewrite map_repeat, repeat_length.
Qed.

Lemma repeat_elem o k :
  repeat (rate_of_elem o) k = Ok (map rate_of_elem (List.repeat o k)).
Proof. rewrite map_repeat. now destruct o. Qed.

(** A call with one matrix: the rate goes to [normalize] as it is. *)
Lemma normalize_adj_single s h adj a rate :
  holds h adj a ->
  exists h' res,
    normalize_adj [adj] rate s h = (h', res) /\ extends h h' /\
    match normalize_value s a rate with
    | Ok v => exists l, res = Ok (OSingle l) /\ holds h' l v /\ length h <= l
    | Raise e => res = Raise e
    end.
Proof.
  intros Ha. cbn [normalize_adj length Nat.eqb].
  destruct (normalize_refines s h adj a rate Ha) as (h' & res & Hrun & Hext & Hv).
  destruct (normalize_value s a rate) as [v|e].
  - destruct Hv as (l & -> & Hl & Hle).
    exists h', (Ok (OSingle l)). rewrite (bind_ok _ _ _ _ _ Hrun).
    split; [reflexivity|]. split; [exact Hext|]. now exists l.
  - subst res. exists h', (Raise e). rewrite (bind_raise _ _ _ _ _ Hrun).
    now split.
Qed.

(** A call with no or several matrices: one [normalize] per matrix, with
    the rates that [repeat] gives. *)
Lemma normalize_adj_batch s h locs avals rate :
  Forall2 (holds h) locs avals -> length locs <> 1 ->
  exists h' res,
    normalize_adj locs rate s h = (h', res) /\ extends h h' /\
    match repeat rate (length locs) with
    | Ok rates =>
        match normalize_values s (combine avals rates) with
        | Ok vs => exists ls, res = Ok (OTuple ls) /\ Forall2 (holds h') ls vs /\
                              Forall (fun l => length h <= l) ls
        | Raise e => res = Raise e
        end
    | Raise e => res = Raise e
    end.
Proof.
  intros Hlocs Hk. unfold normalize_adj.
  rewrite (proj2 (Nat.eqb_neq _ _) Hk). rewrite bind_lift.
  destruct (repeat rate (length locs)) as [rates|e].
  2: { exists h, (Raise e). split; [reflexivity|]. split; [apply extends_refl | reflexivity]. }
  destruct (mapM_normalize_refines s locs avals h rates Hlocs)
    as (h' & res & Hrun & Hext & Hv).
  destruct (normalize_values s (combine avals rates)) as [vs|e].
  - destruct Hv as (ls & -> & Hls & Hfresh).
    exists h', (Ok (OTuple ls)). rewrite (bind_ok _ _ _ _ _ Hrun).
    split; [reflexivity|]. split; [exact Hext|]. now exists ls.
  - subst res. exists h', (Raise e). rewrite (bind_raise _ _ _ _ _ Hrun).
    now split.
Qed.

Lemma Forall2_map_r {A B C} (P : A -> C -> Prop) (f : B -> C) l1 l2 :
  Forall2 P l1 (map f l2) -> Forall2 (fun x y => P x (f y)) l1 l2.
Proof.
  revert l1. induction l2 as [|y l2 IH]; intros l1 Hf; inversion Hf; subst;
    constructor; auto.
Qed.

Lemma Forall2_and_r {A B} (P : A -> B -> Prop) (Q : B -> Prop) l1 l2 :
  Forall2 P l1 l2 -> Forall Q l2 -> Forall2 (fun x y => Q y /\ P x y) l1 l2.
Proof.
  induction 1 as [|x y l1 l2 Hxy _ IH]; intros HQ; constructor;
    inversion HQ; subst; auto.
Qed.

Lemma Forall_combine_l {A B} (P : A -> Prop) (l : list A) (l' : list B) :
  Forall P l -> Forall (fun q => P (fst q)) (combine l l').
Proof.
  intros HP. revert l'. induction HP as [|x l Hx _ IH]; intros [|y l']; simpl;
    constructor; auto.
Qed.

(** A call on well-formed matrices whose effective rates are numbers or
    [None]: it returns, one output per input, in order, each output the
    matrix for its input and its effective rate. *)
Lemma normalize_adj_elems s h locs avals rate os :
  Forall2 (holds h) locs avals ->
  Forall (fun a => wf_matrix a = true) avals ->
  effective_rates rate (length locs) = Ok (map rate_of_elem os) ->
  exists h' out,
    normalize_adj locs rate s h = (h', Ok out) /\
    extends h h' /\
    is_tuple out = negb (length locs =? 1) /\
    length os = length locs /\
    Forall (fun l => length h <= l) (out_locs out) /\
    Forall2 (fun l q => wf_matrix (fst q) = true /\
                        holds h' l (output_value s (fst q) (snd q)))
      (out_locs out) (combine avals os).
Proof.
  intros Hlocs Hwf Hrates.
  enough (Hgoal : exists h' out,
    normalize_adj locs rate s h = (h', Ok out) /\
    extends h h' /\
    is_tuple out = negb (length locs =? 1) /\
    length os = length locs /\
    Forall (fun l => length h <= l) (out_locs out) /\
    Forall2 (fun l q => holds h' l (output_value s (fst q) (snd q)))
      (out_locs out) (combine avals os)).
  { destruct Hgoal as (h' & out & Hrun & Hext & Htup & Hlen & Hfresh & Hout).
    exists h', out. repeat split; try assumption.
    apply Forall2_and_r; [exact Hout|].
    exact (Forall_combine_l (fun a => wf_matrix a = true) avals os Hwf). }
  unfold effective_rates in Hrates.
  destruct (Nat.eqb_spec (length locs) 1) as [Hk|Hk].
  - destruct locs as [|adj [|? ?]]; try discriminate.
    inversion Hlocs as [|? a ? avals' Ha Hnil]; subst. inversion Hnil; subst.
    inversion Hwf as [|? ? Hwfa _]; subst.
    destruct os as [|o [|? ?]]; try discriminate.
    inversion Hrates; subst rate.
    destruct (normalize_adj_single s h adj a (rate_of_elem o) Ha)
      as (h' & res & Hrun & Hext & Hv).
    rewrite normalize_value_elem in Hv by exact Hwfa.
    destruct Hv as (l & -> & Hl & Hle).
    exists h', (OSingle l). repeat split; try assumption.
    + constructor; [exact Hle | constructor].
    + constructor; [exact Hl | constructor].
  - destruct (normalize_adj_batch s h locs avals rate Hlocs Hk)
      as (h' & res & Hrun & Hext & Hv).
    rewrite Hrates, normalize_values_elems in Hv by exact Hwf.
    destruct Hv as (ls & -> & Hls & Hfresh).
    exists h', (OTuple ls). repeat split; try assumption.
    + destruct (repeat_elems rate _ _ Hrates) as (os' & Heq & Hos').
      rewrite <- Hos', <- (length_map rate_of_elem os'), <- Heq.
      now rewrite length_map.
    + apply Forall2_map_r. exact Hls.
Qed.

End Calls.

(** * The claims of the specification *)

Section Claims.

Context {F : Type} `{Numeric F}.

Implicit Types (h : heap F) (a : matrix F) (s : F).

Lemma mul_zero_between (x y : F) :
  is_finite x = true -> is_finite y = true -> mul (mul x zero) y = zero.
Proof.
  intros Hx Hy. rewrite (mul_comm x zero), (mul_zero_finite x Hx).
  now apply mul_zero_finite.
Qed.

Lemma not_finite_not_zero (x : F) :
  is_finite (zero : F) = true -> is_finite x = false -> is_zero x = false.
Proof.
  intros Hz Hx. destruct (is_zero x) eqn:Ez; [|reflexivity].
  apply is_zero_spec in Ez. subst x. rewrite Hz in Hx. discriminate.
Qed.

(** Where the scaling gives the product of the three factors: at the
    entries that it multiplies and, of the others, at those where the
    factors are finite, so that the product is zero as well. *)
Lemma scaled_entry_product (sparse : bool) (dpi b dpj : F) :
  (if sparse then is_zero b = false
   else is_zero dpi = false /\ is_zero dpj = false) \/
  (is_finite (mul dpi b) = true /\ is_finite dpj = true) ->
  scaled_entry sparse dpi b dpj = mul (mul dpi b) dpj.
Proof.
  intros Hcase. unfold scaled_entry. destruct sparse.
  - destruct (is_zero b) eqn:Eb; [|reflexivity].
    destruct Hcase as [Hc|[Hfi Hfj]]; [discriminate|].
    apply is_zero_spec in Eb. subst b.
    symmetry. apply mul_zero_between; [|exact Hfj].
    now apply mul_finite in Hfi.
  - destruct (is_zero dpj) eqn:Ej.
    + destruct Hcase as [[_ Hc]|[Hfi _]]; [discriminate|].
      apply is_zero_spec in Ej. subst dpj.
      rewrite mul_comm. symmetry. now apply mul_zero_finite.
    + destruct (is_zero dpi) eqn:Ei; [|reflexivity].
      destruct Hcase as [[Hc _]|[Hfi _]]; [discriminate|].
      apply is_zero_spec in Ei. subst dpi.
      apply mul_finite_r in Hfi. now rewrite (mul_zero_finite b Hfi).
Qed.

(** C1, amended.  A call on well-formed matrices returns, and for every
    input [A] with finite entries whose effective rate is a finite number
    [r] the output [R] has
    R[i,j] = (degree_power[i] * B[i,j]) * degree_power[j], where
    B = A + selfloop * I, degree[i] is the sum of row [i] of [B] and
    degree_power[i] = degree[i] ** r, at the entries that the code
    multiplies: those with B[i,j] <> 0 when [A] is sparse, those with
    degree_power[i] <> 0 and degree_power[j] <> 0 when [A] is dense.  The
    other entries are zero, or zero times degree_power[j]; they have the
    value of the formula when degree_power[i] * B[i,j] and degree_power[j]
    are finite.  Every matrix of the call gets the same [selfloop]. *)
Theorem normalize_adj_entries s h locs avals rate os :
  Forall2 (holds h) locs avals ->
  Forall (fun a => wf_matrix a = true) avals ->
  effective_rates rate (length locs) = Ok (map rate_of_elem os) ->
  exists h' out,
    normalize_adj locs rate s h = (h', Ok out) /\
    Forall2 (fun l '(a, o) =>
      forall r, o = Some r -> is_finite r = true -> all_finite a ->
      exists R, holds h' l R /\ dim R = dim a /\
        forall i j, i < dim a -> j < dim a ->
          let dpi := power (degree s a i) r in
          let dpj := power (degree s a j) r in
          let b := augmented s a i j in
          (if isspmatrix a then is_zero b = false
           else is_zero dpi = false /\ is_zero dpj = false) \/
          (is_finite (mul dpi b) = true /\ is_finite dpj = true) ->
          mat_entry R i j = mul (mul dpi b) dpj)
      (out_locs out) (combine avals os).
Proof.
  intros Hlocs Hwf Hrates.
  destruct (normalize_adj_elems s h locs avals rate os Hlocs Hwf Hrates)
    as (h' & out & Hrun & _ & _ & _ & _ & Hout).
  exists h', out. split; [exact Hrun|].
  eapply Forall2_impl; [|exact Hout].
  intros l [a o] [_ Hl] r -> _ _. cbn [fst snd output_value] in Hl.
  eexists. split; [exact Hl|].
  split; [apply dim_scaled_matrix|].
  intros i j Hi Hj dpi dpj b Hcase.
  rewrite mat_entry_scaled_matrix, !nth_degree_power by assumption.
  now apply scaled_entry_product.
Qed.

(** C3.  For every input [A] whose effective rate is [None] a call
    returns exactly the sum [A + selfloop * I]: the matrix that the
    addition gives, with the entries of [A] plus [selfloop] on the
    diagonal, sparse or dense as [A] is, and no degree scaling. *)
Theorem normalize_adj_rate_none s h locs avals rate os :
  Forall2 (holds h) locs avals ->
  Forall (fun a => wf_matrix a = true) avals ->
  effective_rates rate (length locs) = Ok (map rate_of_elem os) ->
  exists h' out,
    normalize_adj locs rate s h = (h', Ok out) /\
    Forall2 (fun l '(a, o) =>
      o = None ->
      exists R, holds h' l R /\
        mat_add a (sp_scale s (sp_eye (dim a))) = Ok R /\
        isspmatrix R = isspmatrix a /\ dim R = dim a /\
        forall i j, i < dim a -> j < dim a ->
          mat_entry R i j = add (mat_entry a i j) (if i =? j then s else zero))
      (out_locs out) (combine avals os).
Proof.
  intros Hlocs Hwf Hrates.
  destruct (normalize_adj_elems s h locs avals rate os Hlocs Hwf Hrates)
    as (h' & out & Hrun & _ & _ & _ & _ & Hout).
  exists h', out. split; [exact Hrun|].
  eapply Forall2_impl; [|exact Hout].
  intros l [a o] [Hwfa Hl] ->. cbn [fst snd output_value] in Hl, Hwfa.
  exists (augmented_matrix s a).
  split; [exact Hl|].
  split; [now apply mat_add_selfloops|].
  split; [apply isspmatrix_augmented_matrix|].
  split; [apply dim_augmented_matrix|].
  intros i j Hi Hj. now apply mat_entry_augmented_matrix.
Qed.

Lemma augmented_symmetric s a i j :
  symmetric a -> i < dim a -> j < dim a -> augmented s a i j = augmented s a j i.
Proof.
  intros Hsym Hi Hj. unfold augmented.
  now rewrite (Hsym i j Hi Hj), (Nat.eqb_sym i j).
Qed.

(** C5, amended.  For a symmetric input whose effective rate is a number
    the entries R[i,j] and R[j,i] of the output are products of the same
    three factors in two orders, (degree_power[i] * B[i,j]) * degree_power[j]
    and (degree_power[j] * B[i,j]) * degree_power[i].  They are equal
    wherever these two products are: on the diagonal, and everywhere if
    no product is rounded.  For a dense input the two degree powers have,
    besides, to be both zero, both nonzero or both finite, since the
    product leaves out a degree power that is zero. *)
Theorem normalize_adj_symmetric s h locs avals rate os :
  Forall2 (holds h) locs avals ->
  Forall (fun a => wf_matrix a = true) avals ->
  effective_rates rate (length locs) = Ok (map rate_of_elem os) ->
  exists h' out,
    normalize_adj locs rate s h = (h', Ok out) /\
    Forall2 (fun l '(a, o) =>
      forall r, o = Some r -> symmetric a ->
      exists R, holds h' l R /\ dim R = dim a /\
        forall i j, i < dim a -> j < dim a ->
          let dpi := power (degree s a i) r in
          let dpj := power (degree s a j) r in
          let b := augmented s a i j in
          mul (mul dpi b) dpj = mul (mul dpj b) dpi ->
          isspmatrix a = true \/ is_zero dpi = is_zero dpj \/
          (is_finite dpi = true /\ is_finite dpj = true) ->
          mat_entry R i j = mat_entry R j i)
      (out_locs out) (combine avals os).
Proof.
  intros Hlocs Hwf Hrates.
  destruct (normalize_adj_elems s h locs avals rate os Hlocs Hwf Hrates)
    as (h' & out & Hrun & _ & _ & _ & _ & Hout).
  exists h', out. split; [exact Hrun|].
  eapply Forall2_impl; [|exact Hout].
  intros l [a o] [_ Hl] r -> Hsym. cbn [fst snd output_value] in Hl.
  eexists. split; [exact Hl|].
  split; [apply dim_scaled_matrix|].
  intros i j Hi Hj dpi dpj b Hprod Hcase.
  rewrite !mat_entry_scaled_matrix, !nth_degree_power by assumption.
  rewrite <- (augmented_symmetric s a i j Hsym Hi Hj).
  fold dpi dpj b. unfold scaled_entry.
  destruct (isspmatrix a).
  - destruct (is_zero b); [reflexivity | exact Hprod].
  - destruct (is_zero dpi) eqn:Ei, (is_zero dpj) eqn:Ej;
      try reflexivity; try exact Hprod;
      destruct Hcase as [Hc|[Hc|[Hfi Hfj]]]; try discriminate.
    + now apply mul_zero_finite.
    + symmetry. now apply mul_zero_finite.
Qed.

(** C7, amended.  A call returns also when a node [i] of an input has
    degree zero and the effective rate of that input is a negative
    number: degree_power[i] is then not finite (zero itself being a
    finite number).  In row [i] and in column
    [i] of the output of a sparse input the entries with B[p,q] <> 0 are
    non-finite and those with B[p,q] = 0, which are not stored, stay zero.
    Of a dense input every entry of column [i] is non-finite, and so is
    the entry of row [i] in each column [q] with degree_power[q] <> 0; in
    a column with degree_power[q] = 0 it is zero, since the product leaves
    out a degree power that is zero. *)
Theorem normalize_adj_zero_degree s h locs avals rate os :
  Forall2 (holds h) locs avals ->
  Forall (fun a => wf_matrix a = true) avals ->
  effective_rates rate (length locs) = Ok (map rate_of_elem os) ->
  exists h' out,
    normalize_adj locs rate s h = (h', Ok out) /\
    Forall2 (fun l '(a, o) =>
      forall r, o = Some r -> is_negative r = true ->
      is_finite (zero : F) = true ->
      exists R, holds h' l R /\
        forall i, i < dim a -> degree s a i = zero ->
        forall p q, p < dim a -> q < dim a -> p = i \/ q = i ->
          if (if isspmatrix a then is_zero (augmented s a p q)
              else is_zero (power (degree s a q) r))
          then mat_entry R p q = zero
          else is_finite (mat_entry R p q) = false)
      (out_locs out) (combine avals os).
Proof.
  intros Hlocs Hwf Hrates.
  destruct (normalize_adj_elems s h locs avals rate os Hlocs Hwf Hrates)
    as (h' & out & Hrun & _ & _ & _ & _ & Hout).
  exists h', out. split; [exact Hrun|].
  eapply Forall2_impl; [|exact Hout].
  intros l [a o] [_ Hl] r -> Hneg Hzero. cbn [fst snd output_value] in Hl.
  eexists. split; [exact Hl|].
  intros i Hi Hdeg p q Hp Hq Hpq.
  rewrite mat_entry_scaled_matrix, !nth_degree_power by assumption.
  assert (Hinf : is_finite (power (degree s a i) r) = false)
    by (rewrite Hdeg; now apply power_zero_negative).
  assert (Hnz := not_finite_not_zero _ Hzero Hinf).
  unfold scaled_entry. destruct (isspmatrix a).
  - destruct (is_zero (augmented s a p q)); [reflexivity|].
    match goal with |- is_finite ?x = false =>
      destruct (is_finite x) eqn:Efin; [|reflexivity] end.
    destruct Hpq as [->| ->].
    + apply mul_finite, mul_finite in Efin. congruence.
    + apply mul_finite_r in Efin. congruence.
  - destruct (is_zero (power (degree s a q) r)) eqn:Eq; [reflexivity|].
    match goal with |- is_finite ?x = false =>
      destruct (is_finite x) eqn:Efin; [|reflexivity] end.
    destruct Hpq as [->| ->].
    + rewrite Hnz in Efin. apply mul_finite, mul_finite in Efin. congruence.
    + apply mul_finite_r in Efin. congruence.
Qed.

(** C9.  For a sparse input whose effective rate is a number a call
    returns a CSR matrix, whatever the format of the input.  For one whose
    effective rate is [None] it returns the sum in the format that the
    sparse addition gives it: CSC for a CSC or DOK input, DIA for a DIA
    input, CSR for a COO, CSR or LIL input. *)
Theorem normalize_adj_sparse_format s h locs avals rate os :
  Forall2 (holds h) locs avals ->
  Forall (fun a => wf_matrix a = true) avals ->
  effective_rates rate (length locs) = Ok (map rate_of_elem os) ->
  exists h' out,
    normalize_adj locs rate s h = (h', Ok out) /\
    Forall2 (fun l '(a, o) =>
      forall m, a = Sparse m ->
        exists m', holds h' l (Sparse m') /\
          (o = None ->
           exists b, sp_add m (sp_scale s (sp_eye (sp_dim m))) = Ok b /\
                     sp_fmt m' = sp_fmt b) /\
          sp_fmt m' = match o with
                      | Some _ => CSR
                      | None => match sp_fmt m with
                                | CSC | DOK => CSC
                                | DIA => DIA
                                | COO | CSR | LIL => CSR
                                end
                      end)
      (out_locs out) (combine avals os).
Proof.
  intros Hlocs Hwf Hrates.
  destruct (normalize_adj_elems s h locs avals rate os Hlocs Hwf Hrates)
    as (h' & out & Hrun & _ & _ & _ & _ & Hout).
  exists h', out. split; [exact Hrun|].
  eapply Forall2_impl; [|exact Hout].
  intros l [a o] [_ Hl] m ->. destruct o as [r|]; cbn [fst snd output_value] in Hl.
  - exists (sparse_result s m (degree_power s (Sparse m) r)).
    split; [exact Hl|]. split; [discriminate | reflexivity].
  - exists (sparse_sum s m). split; [exact Hl|]. split.
    + intros _. exists (sparse_sum s m). split; [|reflexivity].
      unfold sp_add. simpl. now rewrite Nat.eqb_refl.
    + cbn [sparse_sum sp_fmt]. now destruct (sp_fmt m).
Qed.

Lemma Forall2_nth_both {A B} (P : A -> B -> Prop) l1 l2 (d1 : A) (d2 : B) i :
  Forall2 P l1 l2 -> i < length l1 -> P (nth i l1 d1) (nth i l2 d2).
Proof.
  intros Hf. revert i. induction Hf as [|x y l1 l2 Hxy _ IH]; intros i Hi.
  - simpl in Hi. lia.
  - destruct i as [|i]; simpl; [exact Hxy|]. apply IH. simpl in Hi. lia.
Qed.

(** C4.  A call with one matrix returns what [normalize] returns for it,
    not wrapped; a call with k <> 1 matrices whose rate [repeat] accepts
    returns a tuple of k matrices, the i-th of which is the matrix that
    [normalize] returns for the i-th input and the i-th effective rate. *)
Theorem normalize_adj_output_shape s h locs avals rate :
  Forall2 (holds h) locs avals ->
  Forall (fun a => wf_matrix a = true) avals ->
  (forall adj, locs = [adj] ->
     normalize_adj locs rate s h
     = (fst (normalize s adj rate h),
        match snd (normalize s adj rate h) with
        | Ok l => Ok (OSingle l)
        | Raise e => Raise e
        end)) /\
  (length locs <> 1 ->
   forall rates, repeat rate (length locs) = Ok rates ->
     exists h' ls,
       normalize_adj locs rate s h = (h', Ok (OTuple ls)) /\
       length ls = length locs /\
       forall i, i < length locs ->
         exists v, holds h' (nth i ls 0) v /\
           returns (normalize s (nth i locs 0) (nth i rates RNone)) h v).
Proof.
  intros Hlocs Hwf. split.
  - intros adj ->. cbn [normalize_adj length Nat.eqb]. unfold bind, ret.
    destruct (normalize s adj rate h) as [h' [l|e]]; reflexivity.
  - intros Hk rates Hrates.
    destruct (normalize_adj_batch s h locs avals rate Hlocs Hk)
      as (h' & res & Hrun & Hext & Hv).
    rewrite Hrates in Hv.
    destruct (repeat_elems rate (length locs) rates Hrates) as (os & -> & Hos).
    rewrite normalize_values_elems in Hv by exact Hwf.
    destruct Hv as (ls & -> & Hls & _).
    assert (Hlen : length avals = length locs)
      by (symmetry; apply (Forall2_length Hlocs)).
    assert (Hlenls : length ls = length locs).
    { rewrite (Forall2_length Hls), length_map, length_combine. lia. }
    exists h', ls. split; [exact Hrun|]. split; [exact Hlenls|].
    intros i Hi.
    set (d := Dense NdArray [] : matrix F).
    assert (Hhold : holds h (nth i locs 0) (nth i avals d))
      by (apply Forall2_nth_both; assumption).
    assert (Hwfi : wf_matrix (nth i avals d) = true)
      by (apply Forall_nth; [exact Hwf | lia]).
    exists (output_value s (nth i avals d) (nth i os None)). split.
    + assert (Hnth := Forall2_nth_both (holds h') ls _ 0
                        (output_value s d None) i Hls).
      rewrite (map_nth (fun q => output_value s (fst q) (snd q))
                 (combine avals os) (d, None) i) in Hnth.
      rewrite combine_nth in Hnth by lia.
      apply Hnth. lia.
    + change RNone with (rate_of_elem (@None F)). rewrite map_nth.
      destruct (normalize_refines s h _ _ (rate_of_elem (nth i os None)) Hhold)
        as (h1 & res1 & Hrun1 & _ & Hv1).
      rewrite normalize_value_elem in Hv1 by exact Hwfi.
      destruct Hv1 as (l1 & -> & Hl1 & _).
      now exists h1, l1.
Qed.

(** C6.  A scalar rate (or [None]) is replicated to the number of
    matrices: a call with it and a call with the sequence of that many
    copies of it do the same; with two matrices, [rate=r] and
    [rate=[r, r]]. *)
Theorem normalize_adj_rate_broadcast s h locs (o : option F) :
  length locs <> 1 ->
  normalize_adj locs (rate_of_elem o) s h
  = normalize_adj locs (RSeq (List.repeat o (length locs))) s h.
Proof.
  intros Hk. unfold normalize_adj.
  rewrite (proj2 (Nat.eqb_neq _ _) Hk).
  rewrite repeat_elem. cbn [repeat].
  now rewrite repeat_length, Nat.eqb_refl.
Qed.

Lemma normalize_adj_frame s h locs rate :
  exists h' res,
    normalize_adj locs rate s h = (h', res) /\ extends h h' /\
    forall out, res = Ok out ->
      Forall (fun l => length h <= l < length h') (out_locs out).
Proof.
  unfold normalize_adj.
  destruct (Nat.eqb_spec (length locs) 1) as [Hk|Hk].
  - destruct locs as [|adj locs]; [discriminate|].
    destruct (normalize_frame s h adj rate) as (h' & res & Hrun & Hext & Hf).
    destruct res as [l|e].
    + exists h', (Ok (OSingle l)). rewrite (bind_ok _ _ _ _ _ Hrun).
      split; [reflexivity|]. split; [exact Hext|].
      intros out Hout. inversion Hout; subst out.
      constructor; [now apply Hf | constructor].
    + exists h', (Raise e). rewrite (bind_raise _ _ _ _ _ Hrun).
      split; [reflexivity|]. split; [exact Hext | discriminate].
  - rewrite bind_lift.
    destruct (repeat rate (length locs)) as [rates|e].
    2: { exists h, (Raise e). split; [reflexivity|].
         split; [apply extends_refl | discriminate]. }
    destruct (mapM_normalize_frame s (combine locs rates) h)
      as (h' & res & Hrun & Hext & Hf).
    destruct res as [ls|e].
    + exists h', (Ok (OTuple ls)). rewrite (bind_ok _ _ _ _ _ Hrun).
      split; [reflexivity|]. split; [exact Hext|].
      intros out Hout. inversion Hout; subst out. now apply Hf.
    + exists h', (Raise e). rewrite (bind_raise _ _ _ _ _ Hrun).
      split; [reflexivity|]. split; [exact Hext | discriminate].
Qed.

(** C8.  A call changes no object that was on the heap before it, the
    inputs among them, whether it returns or raises; the matrices it
    returns are objects that the call itself allocated. *)
Theorem normalize_adj_pure s h locs rate :
  exists h' res,
    normalize_adj locs rate s h = (h', res) /\
    (forall l x, nth_error h l = Some x -> nth_error h' l = Some x) /\
    (forall out, res = Ok out ->
       Forall (fun l => length h <= l < length h') (out_locs out)).
Proof.
  destruct (normalize_adj_frame s h locs rate) as (h' & res & Hrun & Hext & Hf).
  exists h', res. split; [exact Hrun|]. split; [|exact Hf].
  intros l x. now apply extends_lookup.
Qed.

(** *** Representation *)

Lemma normalize_value_family s a r v :
  normalize_value s a r = Ok v -> isspmatrix v = isspmatrix a.
Proof.
  unfold normalize_value, mat_add.
  destruct a as [m|k rows];
    [destruct (sp_add m _) as [b|] | destruct (dense_add_sp rows _) as [b|]];
    cbn [rbind]; try discriminate.
  all: destruct r as [|x|l]; [intros Heq; now inversion Heq| |].
  all: match goal with |- context [np_power ?d ?r] =>
         destruct (np_power d r) as [dp|] end; cbn [rbind]; try discriminate.
  1, 2: destruct (scale_entries dp b); cbn [rbind]; try discriminate;
        intros Heq; now inversion Heq.
  all: destruct (sp_matmul_dense (sp_diags dp) b) as [half|]; cbn [rbind];
       try discriminate;
       destruct (dense_matmul_sp half (sp_diags dp)); cbn [rbind];
       try discriminate; intros Heq; now inversion Heq.
Qed.

Lemma normalize_values_family s avals :
  forall rates vs,
    length rates = length avals ->
    normalize_values s (combine avals rates) = Ok vs ->
    Forall2 (fun a v => isspmatrix v = isspmatrix a) avals vs.
Proof.
  unfold normalize_values.
  induction avals as [|a avals IH]; intros [|r rates] vs Hlen; try discriminate.
  - intros Heq. inversion Heq. constructor.
  - cbn [combine rmapM fst snd].
    destruct (normalize_value s a r) as [v|] eqn:Ev; cbn [rbind]; try discriminate.
    destruct (rmapM _ (combine avals rates)) as [vs'|] eqn:Evs; cbn [rbind];
      try discriminate.
    intros Heq. inversion Heq; subst vs. constructor.
    + now apply normalize_value_family in Ev.
    + apply (IH rates); [simpl in Hlen; lia | exact Evs].
Qed.

Lemma Forall2_chain {A B C} (P : A -> C -> Prop) (Q : B -> C -> Prop) l1 l2 l3 :
  Forall2 P l1 l3 -> Forall2 Q l2 l3 ->
  Forall2 (fun x y => exists z, P x z /\ Q y z) l1 l2.
Proof.
  intros HP. revert l2. induction HP as [|x z l1 l3 Hxz _ IH]; intros l2 HQ;
    inversion HQ; subst; constructor; eauto.
Qed.

(** C2.  Every call that returns gives, for each input, an output of the
    same family: sparse for sparse, dense for dense.  For a sparse input
    whose effective rate is a number the stored entries of the output are
    the stored entries of the sum [A + selfloop * I], in the same order,
    the value [v] at (row, col) replaced by
    degree_power[row] * v * degree_power[col]. *)
Theorem normalize_adj_representation s h locs avals :
  Forall2 (holds h) locs avals ->
  (forall rate h' out,
     normalize_adj locs rate s h = (h', Ok out) ->
     Forall2 (fun l a => exists R, holds h' l R /\ isspmatrix R = isspmatrix a)
       (out_locs out) avals) /\
  (forall rate os,
     Forall (fun a => wf_matrix a = true) avals ->
     effective_rates rate (length locs) = Ok (map rate_of_elem os) ->
     exists h' out,
       normalize_adj locs rate s h = (h', Ok out) /\
       Forall2 (fun l '(a, o) =>
         forall r m, o = Some r -> a = Sparse m ->
           exists b R,
             sp_add m (sp_scale s (sp_eye (sp_dim m))) = Ok b /\
             holds h' l (Sparse R) /\
             let dp := map (fun d => power d r) (row_sums (Sparse b)) in
             sp_entries R
             = map (fun e => (fst e,
                              mul (mul (nth (e_row e) dp zero) (e_val e))
                                  (nth (e_col e) dp zero)))
                   (sp_entries b))
         (out_locs out) (combine avals os)).
Proof.
  intros Hlocs. split.
  - intros rate h' out Hrun.
    destruct (Nat.eq_dec (length locs) 1) as [Hk|Hk].
    + destruct locs as [|adj [|? ?]]; try discriminate.
      inversion Hlocs as [|? a ? avals' Ha Hnil]; subst. inversion Hnil; subst.
      destruct (normalize_adj_single s h adj a rate Ha)
        as (h1 & res & Hrun1 & _ & Hv).
      rewrite Hrun in Hrun1. inversion Hrun1; subst h1 res.
      destruct (normalize_value s a rate) as [v|] eqn:Ev; [|discriminate].
      destruct Hv as (l & Hout & Hl & _). inversion Hout; subst out.
      constructor; [|constructor].
      exists v. split; [exact Hl|]. now apply normalize_value_family in Ev.
    + destruct (normalize_adj_batch s h locs avals rate Hlocs Hk)
        as (h1 & res & Hrun1 & _ & Hv).
      rewrite Hrun in Hrun1. inversion Hrun1; subst h1 res.
      destruct (repeat rate (length locs)) as [rates|] eqn:Er; [|discriminate].
      destruct (normalize_values s (combine avals rates)) as [vs|] eqn:Evs;
        [|discriminate].
      destruct Hv as (ls & Hout & Hls & _). inversion Hout; subst out.
      apply (Forall2_chain _ _ _ _ vs Hls).
      apply (normalize_values_family s avals rates); [|exact Evs].
      destruct (repeat_elems rate _ rates Er) as (os & -> & Hos).
      rewrite length_map, Hos. apply (Forall2_length Hlocs).
  - intros rate os Hwf Hrates.
    destruct (normalize_adj_elems s h locs avals rate os Hlocs Hwf Hrates)
      as (h' & out & Hrun & _ & _ & _ & _ & Hout).
    exists h', out. split; [exact Hrun|].
    eapply Forall2_impl; [|exact Hout].
    intros l [a o] [Hwfa Hl] r m -> ->.
    cbn [fst snd output_value scaled_matrix] in Hl.
    exists (sparse_sum s m), (sparse_result s m (degree_power s (Sparse m) r)).
    split; [|split; [exact Hl|]].
    + unfold sp_add. simpl. now rewrite Nat.eqb_refl.
    + cbn zeta. unfold degree_power.
      rewrite <- (row_sums_augmented_matrix s (Sparse m)). reflexivity.
Qed.

(** *** A sequence as the rate of a call with one matrix *)

Lemma rmapM_length {A B} (f : A -> result B) (l : list A) vs :
  rmapM f l = Ok vs -> length vs = length l.
Proof.
  revert vs. induction l as [|x l IH]; simpl; intros vs.
  - intros Heq. now inversion Heq.
  - destruct (f x); cbn [rbind]; try discriminate.
    destruct (rmapM f l) as [vs'|]; cbn [rbind]; try discriminate.
    intros Heq. inversion Heq. simpl. now rewrite (IH vs').
Qed.

Lemma rmapM_power_scalar (x : F) (l : list F) :
  rmapM power_elem (map (fun d => (d, Some x)) l)
  = Ok (map (fun d => power d x) l).
Proof.
  induction l as [|d l IH]; [reflexivity|].
  cbn [map rmapM]. unfold power_elem at 1. cbn [fst snd rbind].
  now rewrite IH.
Qed.

Lemma rmapM_power_each (degs xs : list F) :
  rmapM power_elem (combine degs (map Some xs))
  = Ok (map (fun p => power (fst p) (snd p)) (combine degs xs)).
Proof.
  revert xs. induction degs as [|d degs IH]; intros [|x xs]; try reflexivity.
  cbn [map combine rmapM]. unfold power_elem at 1. cbn [fst snd rbind].
  now rewrite IH.
Qed.

(** A sequence of one number is broadcast like that number. *)
Lemma np_power_singleton (degs : list F) (x : F) :
  np_power degs (RSeq [Some x]) = np_power degs (RScalar x).
Proof.
  unfold np_power, np_broadcast2.
  destruct degs as [|d [|d' degs]]; try reflexivity.
  cbn [length Nat.eqb rbind]. apply rmapM_power_scalar.
Qed.

Lemma np_power_each (degs xs : list F) :
  length xs = length degs ->
  np_power degs (RSeq (map Some xs))
  = Ok (map (fun p => power (fst p) (snd p)) (combine degs xs)).
Proof.
  intros Hl. unfold np_power.
  rewrite np_broadcast2_same by now rewrite length_map.
  cbn [rbind]. apply rmapM_power_each.
Qed.

Lemma np_broadcast2_mismatch {A B} (xs : list A) (ys : list B) :
  length xs <> length ys -> length xs <> 1 -> length ys <> 1 ->
  np_broadcast2 xs ys = Raise ValueError.
Proof.
  intros Hne Hx Hy. unfold np_broadcast2.
  rewrite (proj2 (Nat.eqb_neq _ _) Hne).
  destruct ys as [|y [|y' ys]]; destruct xs as [|x [|x' xs]];
    simpl in *; congruence.
Qed.

Lemma np_power_broadcast_one (d : F) (l : list (option F)) dp :
  length l <> 1 -> np_power [d] (RSeq l) = Ok dp -> length dp = length l.
Proof.
  intros Hl. unfold np_power, np_broadcast2.
  destruct l as [|y [|y' l]]; [| exfalso; now apply Hl |].
  - cbn. intros Heq. now inversion Heq.
  - cbn [length Nat.eqb rbind]. intros Hp.
    apply rmapM_length in Hp. now rewrite Hp, length_map.
Qed.

Lemma bind_ext {A B} (c : M A) (k1 k2 : A -> M B) (h : heap F) :
  (forall x h', k1 x h' = k2 x h') -> bind c k1 h = bind c k2 h.
Proof.
  intros Hk. unfold bind. destruct (c h) as [h' [x|e]]; [apply Hk | reflexivity].
Qed.

Lemma normalize_singleton s adj (x : F) h :
  normalize s adj (RSeq [Some x]) h = normalize s adj (RScalar x) h.
Proof.
  unfold normalize.
  apply bind_ext. intros n h1. apply bind_ext. intros l h2.
  apply bind_ext. intros degs h3. now rewrite np_power_singleton.
Qed.

(** A sequence that numpy cannot broadcast against the degrees makes
    [normalize] raise; so does, for a dense 1 x 1 matrix, a sequence that
    numpy broadcasts to a longer vector of degree powers. *)
Lemma normalize_value_bad_length s a (l : list (option F)) :
  wf_matrix a = true ->
  length l <> 1 -> length l <> dim a ->
  dim a <> 1 \/ isspmatrix a = false ->
  exists e, normalize_value s a (RSeq l) = Raise e.
Proof.
  intros Hwf Hl1 Hln Hcase. unfold normalize_value.
  change (sp_scale s (sp_eye (dim a))) with (selfloops s (dim a)).
  rewrite mat_add_selfloops by exact Hwf. cbn [rbind].
  rewrite row_sums_augmented_matrix.
  destruct (Nat.eq_dec (dim a) 1) as [Hn|Hn].
  - destruct Hcase as [Hcase|Hcase]; [contradiction|].
    destruct a as [m|k rows]; [discriminate|]. simpl in Hn.
    cbn [dim]. rewrite Hn. cbn [tabulate seq map].
    destruct (np_power _ (RSeq l)) as [dp|e] eqn:Ep; cbn [rbind]; [|now exists e].
    apply np_power_broadcast_one in Ep; [|exact Hl1].
    exists ValueError. cbn [augmented_matrix].
    unfold sp_matmul_dense. cbn [sp_diags sp_dim].
    unfold dense_sum at 1. rewrite length_tabulate, Hn.
    rewrite (proj2 (Nat.eqb_neq _ _)) by congruence. reflexivity.
  - exists ValueError. unfold np_power.
    rewrite np_broadcast2_mismatch; [reflexivity| | |exact Hl1];
      rewrite length_tabulate; congruence.
Qed.

(** C10, amended.  A call with one matrix hands the rate to [normalize]
    as it is, without [repeat].  A sequence of one number then acts as
    that number; a sequence of n numbers gives node [i] the exponent
    [xs[i]], the entry at (i, j) being scaled by degree[i] ** xs[i] and
    degree[j] ** xs[j] as [scaled_entry] tells; a sequence of any other
    length makes the call raise when the matrix is dense or is not
    1 x 1. *)
Theorem normalize_adj_single_rate s h adj a :
  holds h adj a ->
  wf_matrix a = true ->
  (forall rate,
     normalize_adj [adj] rate s h
     = (l <- normalize s adj rate ;; ret (OSingle l)) h) /\
  (forall x,
     normalize_adj [adj] (RSeq [Some x]) s h
     = normalize_adj [adj] (RScalar x) s h) /\
  (forall xs, length xs = dim a ->
     exists h' l R,
       normalize_adj [adj] (RSeq (map Some xs)) s h = (h', Ok (OSingle l)) /\
       holds h' l R /\
       forall i j, i < dim a -> j < dim a ->
         mat_entry R i j
         = scaled_entry (isspmatrix a)
             (power (degree s a i) (nth i xs zero))
             (augmented s a i j)
             (power (degree s a j) (nth j xs zero))) /\
  (forall l, length l <> 1 -> length l <> dim a ->
     dim a <> 1 \/ isspmatrix a = false ->
     exists e, raises (normalize_adj [adj] (RSeq l) s) h e).
Proof.
  intros Ha Hwf. split; [reflexivity|]. split; [|split].
  - intros x. cbn [normalize_adj length Nat.eqb].
    unfold bind. now rewrite normalize_singleton.
  - intros xs Hxs.
    destruct (normalize_adj_single s h adj a (RSeq (map Some xs)) Ha)
      as (h' & res & Hrun & _ & Hv).
    set (dp := map (fun p => power (fst p) (snd p))
                   (combine (tabulate (dim a) (degree s a)) xs)).
    assert (Hdp : length dp = dim a).
    { unfold dp. rewrite length_map, length_combine, length_tabulate. lia. }
    rewrite (normalize_value_scaled s a _ dp Hwf) in Hv.
    + destruct Hv as (l & -> & Hl & _).
      exists h', l, (scaled_matrix s a dp).
      split; [exact Hrun|]. split; [exact Hl|].
      intros i j Hi Hj. rewrite mat_entry_scaled_matrix by assumption.
      assert (Hnth : forall k, k < dim a ->
                nth k dp zero = power (degree s a k) (nth k xs zero)).
      { intros k Hk. unfold dp.
        rewrite (nth_map_lt _ _ zero (degree s a 0, zero))
          by (rewrite length_combine, length_tabulate; lia).
        rewrite combine_nth by (rewrite length_tabulate; lia).
        cbn [fst snd]. now rewrite nth_tabulate. }
      now rewrite !Hnth.
    + apply np_power_each. now rewrite length_tabulate.
    + exact Hdp.
  - intros l Hl1 Hln Hcase.
    destruct (normalize_value_bad_length s a l Hwf Hl1 Hln Hcase) as (e & He).
    destruct (normalize_adj_single s h adj a (RSeq l) Ha)
      as (h' & res & Hrun & _ & Hv).
    rewrite He in Hv. subst res. exists e, h'. exact Hrun.
Qed.

End Claims.

(** * The claims on concrete matrices *)

Module Examples.

Import XInt Float64.

Local Open Scope Z_scope.

(** The matrix [[0, 2], [2, 0]], dense and in COO format. *)
Definition ex_dense : matrix XInt.t :=
  Dense NdArray [[Some 0; Some 2]; [Some 2; Some 0]].

Definition ex_sparse : matrix XInt.t :=
  Sparse (SpMatrix COO 2 [(0%nat, 1%nat, Some 2); (1%nat, 0%nat, Some 2)]).

Definition ex_heap : heap XInt.t := [ex_dense; ex_sparse].

(** Node 0 has no edge: with [selfloop = 0] its degree is zero. *)
Definition ex_isolated_dense : matrix XInt.t :=
  Dense NdArray [[Some 0; Some 0]; [Some 0; Some 1]].

Definition ex_isolated_sparse : matrix XInt.t :=
  Sparse (SpMatrix CSR 2 [(1%nat, 1%nat, Some 1)]).

(** A sparse 1 x 1 matrix. *)
Definition ex_one : matrix XInt.t :=
  Sparse (SpMatrix CSR 1 [(0%nat, 0%nat, Some 1)]).

(** The rates of scenario 4 of the specification, [None] for the first
    matrix and a number for the second. *)
Definition ex_rates : list (option XInt.t) := [None; Some (Some 2)].

Definition ex_rate : rate_arg XInt.t := RSeq ex_rates.

Lemma ex_heap_holds : Forall2 (holds ex_heap) [0%nat; 1%nat] [ex_dense; ex_sparse].
Proof. repeat constructor. Defined.

Lemma ex_heap_wf : Forall (fun a => wf_matrix a = true) [ex_dense; ex_sparse].
Proof. repeat constructor. Defined.

(** C1 as stated fails on a sparse matrix with a node of degree zero and
    a negative rate: the entry (0, 1) is not stored and stays 0, while
    degree_power[0] * B[0,1] * degree_power[1] is not finite. *)
Lemma normalize_adj_entries_counterexample :
  let a := ex_isolated_sparse in
  let s : XInt.t := Some 0 in
  let r : XInt.t := Some (-1) in
  all_finite a /\ is_finite r = true /\
  exists h' l R,
    normalize_adj [0%nat] (RScalar r) s [a] = (h', Ok (OSingle l)) /\
    nth_error h' l = Some R /\
    mat_entry R 0 1
    <> mul (mul (power (degree s a 0) r) (augmented s a 0 1))
           (power (degree s a 1) r).
Proof.
  cbv zeta. split; [|split; [reflexivity|]].
  - intros [|[|i]] [|[|j]] Hi Hj; simpl in Hi, Hj; try lia; reflexivity.
  - do 3 eexists. split; [vm_compute; reflexivity|].
    split; [reflexivity|]. vm_compute. discriminate.
Qed.

Lemma normalize_adj_entries_witness :
  Forall2 (holds ex_heap) [0%nat; 1%nat] [ex_dense; ex_sparse] /\
  Forall (fun a => wf_matrix a = true) [ex_dense; ex_sparse] /\
  effective_rates ex_rate 2 = Ok (map rate_of_elem ex_rates) /\
  exists h' out,
    normalize_adj [0%nat; 1%nat] ex_rate (Some 1) ex_heap = (h', Ok out).
Proof.
  split; [exact ex_heap_holds|]. split; [exact ex_heap_wf|].
  split; [reflexivity|].
  destruct (normalize_adj_entries (Some 1) ex_heap [0%nat; 1%nat]
              [ex_dense; ex_sparse] ex_rate ex_rates
              ex_heap_holds ex_heap_wf eq_refl)
    as (h' & out & Hrun & _).
  exists h', out. exact Hrun.
Defined.

Lemma normalize_adj_representation_witness :
  Forall2 (holds ex_heap) [0%nat; 1%nat] [ex_dense; ex_sparse] /\
  exists h' out,
    normalize_adj [0%nat; 1%nat] ex_rate (Some 1) ex_heap = (h', Ok out) /\
    Forall2 (fun l a => exists R, holds h' l R /\ isspmatrix R = isspmatrix a)
      (out_locs out) [ex_dense; ex_sparse].
Proof.
  split; [exact ex_heap_holds|].
  destruct (normalize_adj_representation (Some 1) ex_heap [0%nat; 1%nat]
              [ex_dense; ex_sparse] ex_heap_holds) as [Hfamily Hentries].
  destruct (Hentries ex_rate ex_rates ex_heap_wf eq_refl)
    as (h' & out & Hrun & _).
  exists h', out. split; [exact Hrun|]. exact (Hfamily _ _ _ Hrun).
Defined.

Lemma normalize_adj_rate_none_witness :
  Forall2 (holds ex_heap) [0%nat; 1%nat] [ex_dense; ex_sparse] /\
  Forall (fun a => wf_matrix a = true) [ex_dense; ex_sparse] /\
  effective_rates ex_rate 2 = Ok (map rate_of_elem ex_rates) /\
  exists h' out,
    normalize_adj [0%nat; 1%nat] ex_rate (Some 1) ex_heap = (h', Ok out).
Proof.
  split; [exact ex_heap_holds|]. split; [exact ex_heap_wf|].
  split; [reflexivity|].
  destruct (normalize_adj_rate_none (Some 1) ex_heap [0%nat; 1%nat]
              [ex_dense; ex_sparse] ex_rate ex_rates
              ex_heap_holds ex_heap_wf eq_refl)
    as (h' & out & Hrun & _).
  exists h', out. exact Hrun.
Defined.

(** Scenario 4 of the specification: rates [None, 2] for two matrices. *)
Lemma normalize_adj_output_shape_witness :
  let rate := ex_rate in
  Forall2 (holds ex_heap) [0%nat; 1%nat] [ex_dense; ex_sparse] /\
  Forall (fun a => wf_matrix a = true) [ex_dense; ex_sparse] /\
  length [0%nat; 1%nat] <> 1%nat /\
  repeat rate 2 = Ok [RNone; RScalar (Some 2)] /\
  exists h' ls,
    normalize_adj [0%nat; 1%nat] rate (Some 1) ex_heap = (h', Ok (OTuple ls)) /\
    length ls = 2%nat.
Proof.
  cbv zeta.
  assert (Hk : length [0%nat; 1%nat] <> 1%nat) by (simpl; lia).
  split; [exact ex_heap_holds|]. split; [exact ex_heap_wf|].
  split; [exact Hk|]. split; [reflexivity|].
  destruct (normalize_adj_output_shape (Some 1) ex_heap [0%nat; 1%nat]
              [ex_dense; ex_sparse] ex_rate
              ex_heap_holds ex_heap_wf) as [_ Hbatch].
  destruct (Hbatch Hk [RNone; RScalar (Some 2)] eq_refl)
    as (h' & ls & Hrun & Hlen & _).
  exists h', ls. split; [exact Hrun | exact Hlen].
Defined.

Lemma ex_dense_symmetric : symmetric ex_dense.
Proof. intros [|[|i]] [|[|j]] Hi Hj; simpl in Hi, Hj; try lia; reflexivity. Defined.

Lemma normalize_adj_symmetric_witness :
  Forall2 (holds ex_heap) [0%nat] [ex_dense] /\
  Forall (fun a => wf_matrix a = true) [ex_dense] /\
  effective_rates (RScalar (Some 2 : XInt.t)) 1
  = Ok (map rate_of_elem [Some (Some 2)]) /\
  exists h' l R,
    normalize_adj [0%nat] (RScalar (Some 2)) (Some 1) ex_heap
    = (h', Ok (OSingle l)) /\
    holds h' l R /\ mat_entry R 0 1 = mat_entry R 1 0.
Proof.
  assert (Hholds : Forall2 (holds ex_heap) [0%nat] [ex_dense])
    by (repeat constructor).
  assert (Hwf : Forall (fun a => wf_matrix a = true) [ex_dense])
    by (repeat constructor).
  split; [exact Hholds|]. split; [exact Hwf|]. split; [reflexivity|].
  destruct (normalize_adj_symmetric (Some 1) ex_heap [0%nat] [ex_dense]
              (RScalar (Some 2)) [Some (Some 2)] Hholds Hwf eq_refl)
    as (h' & out & Hrun & Hout).
  destruct out as [l|ls]; [|vm_compute in Hrun; discriminate Hrun].
  inversion Hout as [|? ? ? ? Hsym _]; subst.
  destruct (Hsym (Some 2) eq_refl ex_dense_symmetric)
    as (R & HR & _ & HsymR).
  exists h', l, R. split; [exact Hrun|]. split; [exact HR|].
  apply HsymR; [simpl; lia | simpl; lia | reflexivity |].
  right. left. reflexivity.
Defined.

(** The symmetric matrix [[0, 3], [3, 0.2]] in binary64. *)
Definition ex_float : matrix float :=
  Dense NdArray [[0%float; 3%float]; [3%float; 0x1.999999999999ap-3%float]].

(** C5 as stated fails in floating-point arithmetic: with [selfloop = 0]
    and rate 1 the degrees of [ex_float], and the degree powers, are 3 and
    3.2; the entry (0, 1) is (3 * 3) * 3.2 = 28.8 and the entry (1, 0) is
    (3.2 * 3) * 3 = 28.800000000000004, one unit in the last place
    above. *)
Lemma normalize_adj_symmetric_counterexample :
  let a := ex_float in
  symmetric a /\ all_finite a /\ is_finite 1%float = true /\
  exists h' l R,
    normalize_adj [0%nat] (RScalar 1%float) 0%float [a]
    = (h', Ok (OSingle l)) /\
    nth_error h' l = Some R /\
    mat_entry R 0 1 = 0x1.ccccccccccccdp+4%float /\
    mat_entry R 1 0 = 0x1.ccccccccccccep+4%float /\
    mat_entry R 0 1 <> mat_entry R 1 0.
Proof.
  cbv zeta. split; [|split; [|split; [reflexivity|]]].
  - intros [|[|i]] [|[|j]] Hi Hj; simpl in Hi, Hj; try lia; reflexivity.
  - intros [|[|i]] [|[|j]] Hi Hj; simpl in Hi, Hj; try lia; reflexivity.
  - do 3 eexists. split; [vm_compute; reflexivity|].
    split; [reflexivity|].
    split; [vm_compute; reflexivity|]. split; [vm_compute; reflexivity|].
    intros Heq.
    apply (f_equal (fun x => PrimFloat.eqb x 0x1.ccccccccccccdp+4%float)) in Heq.
    vm_compute in Heq. discriminate Heq.
Qed.

(** The rate broadcasting of the specification, [rate=r] against
    [rate=[r, r]] for two matrices. *)
Lemma normalize_adj_rate_broadcast_witness :
  length [0%nat; 1%nat] <> 1%nat /\
  normalize_adj [0%nat; 1%nat] (RScalar (Some 2)) (Some 1) ex_heap
  = normalize_adj [0%nat; 1%nat] (RSeq [Some (Some 2); Some (Some 2)])
      (Some 1) ex_heap.
Proof.
  assert (Hk : length [0%nat; 1%nat] <> 1%nat) by (simpl; lia).
  split; [exact Hk|].
  exact (normalize_adj_rate_broadcast (Some 1) ex_heap [0%nat; 1%nat]
           (Some (Some 2)) Hk).
Defined.

(** C7 as stated fails on a sparse matrix: node 0 has degree zero and the
    rate is negative, yet every entry of the output is finite, because
    row 0 and column 0 have no stored entry to scale. *)
Lemma normalize_adj_zero_degree_counterexample :
  let a := ex_isolated_sparse in
  let s : XInt.t := Some 0 in
  let r : XInt.t := Some (-1) in
  degree s a 0 = zero /\ is_negative r = true /\
  exists h' l R,
    normalize_adj [0%nat] (RScalar r) s [a] = (h', Ok (OSingle l)) /\
    nth_error h' l = Some R /\
    forall i j, (i < 2)%nat -> (j < 2)%nat -> is_finite (mat_entry R i j) = true.
Proof.
  cbv zeta. split; [reflexivity|]. split; [reflexivity|].
  do 3 eexists. split; [vm_compute; reflexivity|].
  split; [reflexivity|].
  intros [|[|i]] [|[|j]] Hi Hj; try lia; reflexivity.
Qed.

Lemma normalize_adj_zero_degree_witness :
  let r : XInt.t := Some (-1) in
  Forall2 (holds [ex_isolated_dense]) [0%nat] [ex_isolated_dense] /\
  Forall (fun a => wf_matrix a = true) [ex_isolated_dense] /\
  effective_rates (RScalar r) 1 = Ok (map rate_of_elem [Some r]) /\
  is_negative r = true /\
  exists h' l R,
    normalize_adj [0%nat] (RScalar r) (Some 0) [ex_isolated_dense]
    = (h', Ok (OSingle l)) /\
    holds h' l R /\ is_finite (mat_entry R 0 1) = false.
Proof.
  cbv zeta.
  assert (Hholds : Forall2 (holds [ex_isolated_dense]) [0%nat] [ex_isolated_dense])
    by (repeat constructor).
  assert (Hwf : Forall (fun a => wf_matrix a = true) [ex_isolated_dense])
    by (repeat constructor).
  assert (Hneg : is_negative (Some (-1) : XInt.t) = true) by reflexivity.
  split; [exact Hholds|]. split; [exact Hwf|]. split; [reflexivity|].
  split; [exact Hneg|].
  destruct (normalize_adj_zero_degree (Some 0) [ex_isolated_dense] [0%nat]
              [ex_isolated_dense] (RScalar (Some (-1))) [Some (Some (-1))]
              Hholds Hwf eq_refl)
    as (h' & out & Hrun & Hout).
  destruct out as [l|ls]; [|vm_compute in Hrun; discriminate Hrun].
  inversion Hout as [|? ? ? ? Hzero _]; subst.
  destruct (Hzero (Some (-1)) eq_refl Hneg eq_refl) as (R & HR & Hrow).
  exists h', l, R. split; [exact Hrun|]. split; [exact HR|].
  assert (H0 : (0 < 2)%nat) by lia. assert (H1 : (1 < 2)%nat) by lia.
  exact (Hrow 0%nat H0 eq_refl 0%nat 1%nat H0 H1 (or_introl eq_refl)).
Defined.

(** The matrix [[0, 2], [2, 0]] in the format [f]. *)
Definition ex_in_format (f : sp_format) : spmatrix XInt.t :=
  SpMatrix f 2 [(0%nat, 1%nat, Some 2); (1%nat, 0%nat, Some 2)].

(** Seven sparse inputs: every format with rate [None], and DIA once
    more with a number. *)
Definition ex_format_list : list sp_format := [COO; CSR; CSC; LIL; DOK; DIA; DIA].

Definition ex_formats : heap XInt.t :=
  map (fun f => Sparse (ex_in_format f)) ex_format_list.

Definition ex_formats_rates : list (option XInt.t) :=
  [None; None; None; None; None; None; Some (Some 2)].

Lemma normalize_adj_sparse_format_witness :
  let locs := seq 0 7 in
  Forall2 (holds ex_formats) locs ex_formats /\
  Forall (fun a => wf_matrix a = true) ex_formats /\
  effective_rates (RSeq ex_formats_rates) 7
  = Ok (map rate_of_elem ex_formats_rates) /\
  exists h' l0 l1 l2 l3 l4 l5 l6,
    normalize_adj locs (RSeq ex_formats_rates) (Some 1) ex_formats
    = (h', Ok (OTuple [l0; l1; l2; l3; l4; l5; l6])) /\
    Forall2 (fun l f => exists m', holds h' l (Sparse m') /\ sp_fmt m' = f)
      [l0; l1; l2; l3; l4; l5; l6] [CSR; CSR; CSC; CSR; CSC; DIA; CSR].
Proof.
  cbv zeta.
  assert (Hholds : Forall2 (holds ex_formats) (seq 0 7) ex_formats)
    by (repeat constructor).
  assert (Hwf : Forall (fun a => wf_matrix a = true) ex_formats)
    by (repeat constructor).
  split; [exact Hholds|]. split; [exact Hwf|]. split; [reflexivity|].
  destruct (normalize_adj_sparse_format (Some 1) ex_formats (seq 0 7)
              ex_formats (RSeq ex_formats_rates) ex_formats_rates
              Hholds Hwf eq_refl)
    as (h' & out & Hrun & Hout).
  destruct out as [l|ls]; [vm_compute in Hrun; discriminate Hrun|].
  cbn [out_locs] in Hout.
  inversion Hout as [|l0 q0 ls0 qs0 H0 Hout0]; subst; clear Hout.
  inversion Hout0 as [|l1 q1 ls1 qs1 H1 Hout1]; subst; clear Hout0.
  inversion Hout1 as [|l2 q2 ls2 qs2 H2 Hout2]; subst; clear Hout1.
  inversion Hout2 as [|l3 q3 ls3 qs3 H3 Hout3]; subst; clear Hout2.
  inversion Hout3 as [|l4 q4 ls4 qs4 H4 Hout4]; subst; clear Hout3.
  inversion Hout4 as [|l5 q5 ls5 qs5 H5 Hout5]; subst; clear Hout4.
  inversion Hout5 as [|l6 q6 ls6 qs6 H6 Hout6]; subst; clear Hout5.
  inversion Hout6; subst; clear Hout6.
  exists h', l0, l1, l2, l3, l4, l5, l6. split; [exact Hrun|].
  destruct (H0 _ eq_refl) as (m0 & Hm0 & _ & Hf0).
  destruct (H1 _ eq_refl) as (m1 & Hm1 & _ & Hf1).
  destruct (H2 _ eq_refl) as (m2 & Hm2 & _ & Hf2).
  destruct (H3 _ eq_refl) as (m3 & Hm3 & _ & Hf3).
  destruct (H4 _ eq_refl) as (m4 & Hm4 & _ & Hf4).
  destruct (H5 _ eq_refl) as (m5 & Hm5 & _ & Hf5).
  destruct (H6 _ eq_refl) as (m6 & Hm6 & _ & Hf6).
  repeat constructor; eexists; (split; [eassumption|]); assumption.
Defined.

(** C10 as stated fails on a sparse 1 x 1 matrix: a sequence of two
    exponents is neither of length one nor a mismatch for numpy, which
    broadcasts the one degree against it, and the call returns. *)
Lemma normalize_adj_single_rate_counterexample :
  let l : list (option XInt.t) := [Some (Some 1); Some (Some 2)] in
  wf_matrix ex_one = true /\
  length l <> 1%nat /\ length l <> dim ex_one /\
  exists h' out,
    normalize_adj [0%nat] (RSeq l) (Some 1) [ex_one] = (h', Ok out).
Proof.
  cbv zeta. split; [reflexivity|].
  split; [simpl; lia|]. split; [simpl; lia|].
  do 2 eexists. vm_compute. reflexivity.
Qed.

Lemma normalize_adj_single_rate_witness :
  holds ex_heap 1%nat ex_sparse /\
  wf_matrix ex_sparse = true /\
  exists e, raises (normalize_adj [1%nat] (RSeq []) (Some 1)) ex_heap e.
Proof.
  split; [reflexivity|]. split; [reflexivity|].
  destruct (normalize_adj_single_rate (Some 1) ex_heap 1%nat ex_sparse
              eq_refl eq_refl) as (_ & _ & _ & Hbad).
  apply (Hbad []); simpl; [lia | lia | left; lia].
Defined.

(** Scenario 1 of the specification: [[0, 1], [1, 0]] with
    [selfloop = 1] and rate [None] gives [[1, 1], [1, 1]]. *)
Example scenario_rate_none :
  normalize_adj [0%nat] RNone (Some 1)
    [Dense NdArray [[Some 0; Some 1]; [Some 1; Some 0]]]
  = ([Dense NdArray [[Some 0; Some 1]; [Some 1; Some 0]];
      Dense NpMatrix [[Some 1; Some 1]; [Some 1; Some 1]]],
     Ok (OSingle 1%nat)).
Proof. reflexivity. Qed.

(** The sparse matrix [[0, 2], [2, 0]] with [selfloop = 1] and rate 2:
    the sum [[1, 2], [2, 1]] has degrees 3 and degree powers 9, and the
    result is the CSR matrix [[81, 162], [162, 81]]. *)
Example scenario_sparse_rate :
  exists h',
    normalize_adj [1%nat] (RScalar (Some 2)) (Some 1) ex_heap
    = (h', Ok (OSingle 4%nat)) /\
    nth_error h' 4
    = Some (Sparse (SpMatrix CSR 2
              [(0%nat, 0%nat, Some 81); (0%nat, 1%nat, Some 162);
               (1%nat, 0%nat, Some 162); (1%nat, 1%nat, Some 81)])).
Proof. eexists. split; reflexivity. Qed.

(** A dense matrix whose degree powers are 0 and non-finite:
    [[1, -1], [1, -1]] with [selfloop = 0] has the degrees 0 and 0, and
    the exponents 1 and -1 give the degree powers 0 and 0 ** -1.  The
    product leaves out the zero: column 0 of the result is zero, also in
    row 1, whose degree power is not finite. *)
Example scenario_dense_zero_power :
  exists h',
    normalize_adj [0%nat] (RSeq [Some (Some 1); Some (Some (-1))]) (Some 0)
      [Dense NdArray [[Some 1; Some (-1)]; [Some 1; Some (-1)]]]
    = (h', Ok (OSingle 2%nat)) /\
    nth_error h' 2 = Some (Dense NdArray [[Some 0; None]; [Some 0; None]]).
Proof. eexists. split; reflexivity. Qed.

(** The 2 x 1 array [[1], [2]] with [selfloop = 1] and rate 2: the sum
    with the identity is [[2, 1], [2, 3]], the degrees are 3 and 5, the
    degree powers 9 and 25. *)
Example scenario_column :
  exists h',
    normalize_adj [0%nat] (RScalar (Some 2)) (Some 1)
      [Dense NdArray [[Some 1]; [Some 2]]]
    = (h', Ok (OSingle 2%nat)) /\
    nth_error h' 2
    = Some (Dense NdArray [[Some 162; Some 225]; [Some 450; Some 1875]]).
Proof. eexists. split; reflexivity. Qed.

End Examples.

(** * Further properties of the source *)

Section FurtherDefinitions.

Context {F : Type} `{NumOps F}.



(** The matrices that a call computes from the matrices it is given: the
    value of [normalize_adj], as a function of values. *)
Definition call_values (selfloop : F) (avals : list (matrix F))
    (rate : rate_arg F) : result (list (matrix F)) :=
  if length avals =? 1 then
    match avals with
    | a :: _ => let? v := normalize_value selfloop a rate in Ok [v]
    | [] => Raise IndexError
    end
  else
    let? rates := repeat rate (length avals) in
    normalize_values selfloop (combine avals rates).

(** The outcomes of two calls agree: both raise the same exception, or
    both return, one matrix or a tuple alike, and the matrices returned
    are equal.  [holds1] and [holds2] read the two final heaps. *)
Definition same_outcome (holds1 holds2 : loc -> matrix F -> Prop)
    (res1 res2 : result pyout) : Prop :=
  match res1, res2 with
  | Ok out1, Ok out2 =>
      is_tuple out1 = is_tuple out2 /\
      exists vs, Forall2 holds1 (out_locs out1) vs /\
                 Forall2 holds2 (out_locs out2) vs
  | Raise e1, Raise e2 => e1 = e2
  | _, _ => False
  end.

End FurtherDefinitions.

Section Further.

Context {F : Type} `{Numeric F}.

Implicit Types (h : heap F) (a : matrix F) (s : F) (o : option F).

(** ** Which calls return *)










(** ** The outcome of a call as a function of the input matrices *)

Lemma normalize_adj_outcome s h locs avals rate :
  Forall2 (holds h) locs avals ->
  exists h' res,
    normalize_adj locs rate s h = (h', res) /\ extends h h' /\
    match call_values s avals rate with
    | Ok vs => exists out, res = Ok out /\
                 is_tuple out = negb (length avals =? 1) /\
                 Forall2 (holds h') (out_locs out) vs
    | Raise e => res = Raise e
    end.
Proof.
  intros Hlocs. assert (Hlen := Forall2_length Hlocs).
  unfold call_values. rewrite <- Hlen.
  destruct (Nat.eqb_spec (length locs) 1) as [Hk|Hk].
  - destruct locs as [|adj [|? ?]]; try discriminate.
    inversion Hlocs as [|? a ? avals' Ha Hnil]; subst. inversion Hnil; subst.
    destruct (normalize_adj_single s h adj a rate Ha)
      as (h' & res & Hrun & Hext & Hv).
    exists h', res. split; [exact Hrun|]. split; [exact Hext|].
    destruct (normalize_value s a rate) as [v|e]; cbn [rbind]; [|exact Hv].
    destruct Hv as (l & -> & Hl & _). exists (OSingle l).
    repeat split. constructor; [exact Hl | constructor].
  - destruct (normalize_adj_batch s h locs avals rate Hlocs Hk)
      as (h' & res & Hrun & Hext & Hv).
    exists h', res. split; [exact Hrun|]. split; [exact Hext|].
    destruct (repeat rate (length locs)) as [rates|e]; cbn [rbind]; [|exact Hv].
    destruct (normalize_values s (combine avals rates)) as [vs|e]; [|exact Hv].
    destruct Hv as (ls & -> & Hls & _). exists (OTuple ls). now repeat split.
Qed.

(** X2.  What a [NormalizeAdj] object returns depends on the matrices it
    is called on only: two calls on equal matrices, on whatever heaps and
    at whatever locations they lie (the same object passed twice, or the
    same call made again later), both raise the same exception or both
    return equal matrices, in the same order and wrapped alike. *)
Theorem call_heap_independent (self : NormalizeAdj F) h1 h2 locs1 locs2 avals :
  Forall2 (holds h1) locs1 avals ->
  Forall2 (holds h2) locs2 avals ->
  exists h1' res1 h2' res2,
    call self locs1 h1 = (h1', res1) /\
    call self locs2 h2 = (h2', res2) /\
    same_outcome (holds h1') (holds h2') res1 res2.
Proof.
  intros Hlocs1 Hlocs2. unfold call.
  destruct (normalize_adj_outcome (na_selfloop self) h1 locs1 avals
              (na_rate self) Hlocs1) as (h1' & res1 & Hrun1 & _ & Hv1).
  destruct (normalize_adj_outcome (na_selfloop self) h2 locs2 avals
              (na_rate self) Hlocs2) as (h2' & res2 & Hrun2 & _ & Hv2).
  exists h1', res1, h2', res2. split; [exact Hrun1|]. split; [exact Hrun2|].
  destruct (call_values (na_selfloop self) avals (na_rate self)) as [vs|e].
  - destruct Hv1 as (out1 & -> & Ht1 & Hout1).
    destruct Hv2 as (out2 & -> & Ht2 & Hout2).
    split; [congruence|]. now exists vs.
  - subst res1 res2. reflexivity.
Qed.

(** ** The objects returned *)

Lemma mapM_normalize_distinct s (items : list (loc * rate_arg F)) :
  forall h h' ls,
    mapM (fun p => normalize s (fst p) (snd p)) items h = (h', Ok ls) ->
    NoDup ls /\ Forall (fun l => length h <= l < length h') ls.
Proof.
  induction items as [|[l r] items IH]; intros h h' ls Hrun.
  - inversion Hrun; subst. split; constructor.
  - cbn [mapM fst snd] in Hrun. unfold bind in Hrun.
    destruct (normalize_frame s h l r) as (h1 & res1 & Hrun1 & Hext1 & Hf1).
    rewrite Hrun1 in Hrun. destruct res1 as [l1|e]; [|discriminate].
    destruct (mapM _ items h1) as [h2 [ls2|e]] eqn:Hrun2; [|discriminate].
    unfold ret in Hrun. inversion Hrun; subst h' ls.
    destruct (IH h1 h2 ls2 Hrun2) as [Hnd Hbounds].
    specialize (Hf1 l1 eq_refl).
    assert (Hle : length h1 <= length h2).
    { destruct (mapM_normalize_frame s items h1) as (h2' & res2 & Hr & He & _).
      rewrite Hrun2 in Hr. inversion Hr; subst. now apply extends_length. }
    split.
    + constructor; [|exact Hnd]. intros Hin.
      rewrite Forall_forall in Hbounds. apply Hbounds in Hin. lia.
    + constructor; [lia|].
      eapply Forall_impl; [|exact Hbounds]. simpl. intros; lia.
Qed.

(** X3.  The matrices that a call returns are distinct objects, also
    when the same input object is passed more than once. *)
Theorem normalize_adj_outputs_distinct s h locs rate h' out :
  normalize_adj locs rate s h = (h', Ok out) -> NoDup (out_locs out).
Proof.
  unfold normalize_adj.
  destruct (length locs =? 1).
  - destruct locs as [|adj locs]; [discriminate|].
    unfold bind, ret. destruct (normalize s adj rate h) as [h1 [l|e]];
      [|discriminate].
    intros Hrun. inversion Hrun; subst. repeat constructor. simpl. tauto.
  - rewrite bind_lift. destruct (repeat rate (length locs)) as [rates|e];
      [|discriminate].
    unfold bind, ret.
    destruct (mapM _ (combine locs rates) h) as [h1 [ls|e]] eqn:Hmap;
      [|discriminate].
    intros Hrun. inversion Hrun; subst.
    now apply mapM_normalize_distinct in Hmap.
Qed.

(** ** Invariants of the returned matrices *)

Lemma wf_canonical n (f : sp_format) (es : list (entry F)) :
  is_canonical n es -> wf_matrix (Sparse (SpMatrix f n es)) = true.
Proof.
  intros Hc. simpl. apply forallb_forall. intros e He.
  destruct (is_canonical_bounds n es e Hc He) as [Hr Hcol].
  apply andb_true_iff. split; now apply Nat.ltb_lt.
Qed.

Lemma square_tabulate n (f : nat -> nat -> F) :
  square (tabulate n (fun i => tabulate n (f i))) = true.
Proof.
  unfold square. apply forallb_forall. intros row Hrow.
  unfold tabulate at 1 in Hrow. apply in_map_iff in Hrow as (i & <- & _).
  rewrite !length_tabulate. apply Nat.eqb_refl.
Qed.

Lemma wf_output_value s a o : wf_matrix (output_value s a o) = true.
Proof.
  destruct o as [r|], a as [m|k rows];
    cbn [output_value scaled_matrix augmented_matrix].
  - apply wf_canonical, is_canonical_map, sparse_sum_canonical.
  - apply square_tabulate.
  - apply (wf_canonical (sp_dim m)), sparse_sum_canonical.
  - apply square_tabulate.
Qed.

Lemma dim_output_value s a o : dim (output_value s a o) = dim a.
Proof.
  destruct o; [apply dim_scaled_matrix | apply dim_augmented_matrix].
Qed.

(** X4.  Every matrix that a call returns for a numeric or [None]
    effective rate is again a well-formed square matrix of the dimension
    of its input, so that it can be given to a further call. *)
Theorem normalize_adj_outputs_wf s h locs avals rate os :
  Forall2 (holds h) locs avals ->
  Forall (fun a => wf_matrix a = true) avals ->
  effective_rates rate (length locs) = Ok (map rate_of_elem os) ->
  exists h' out,
    normalize_adj locs rate s h = (h', Ok out) /\
    Forall2 (fun l '(a, o) =>
      exists R, holds h' l R /\ wf_matrix R = true /\ dim R = dim a)
      (out_locs out) (combine avals os).
Proof.
  intros Hlocs Hwf Hrates.
  destruct (normalize_adj_elems s h locs avals rate os Hlocs Hwf Hrates)
    as (h' & out & Hrun & _ & _ & _ & _ & Hout).
  exists h', out. split; [exact Hrun|].
  eapply Forall2_impl; [|exact Hout].
  intros l [a o] [_ Hl]. cbn [fst snd] in Hl.
  eexists. split; [exact Hl|].
  split; [apply wf_output_value | apply dim_output_value].
Qed.

(** X10.  For a dense input the kind of array returned depends on the
    effective rate, not on the kind given: with [None] the sum with the
    sparse self loops is returned as it is, an [np.matrix]; with a number
    the result goes through [.A] and is an [np.ndarray]. *)
Theorem normalize_adj_dense_kind s h locs avals rate os :
  Forall2 (holds h) locs avals ->
  Forall (fun a => wf_matrix a = true) avals ->
  effective_rates rate (length locs) = Ok (map rate_of_elem os) ->
  exists h' out,
    normalize_adj locs rate s h = (h', Ok out) /\
    Forall2 (fun l '(a, o) =>
      forall k rows, a = Dense k rows ->
        exists rows',
          holds h' l (Dense (match o with
                             | Some _ => NdArray
                             | None => NpMatrix
                             end) rows'))
      (out_locs out) (combine avals os).
Proof.
  intros Hlocs Hwf Hrates.
  destruct (normalize_adj_elems s h locs avals rate os Hlocs Hwf Hrates)
    as (h' & out & Hrun & _ & _ & _ & _ & Hout).
  exists h', out. split; [exact Hrun|].
  eapply Forall2_impl; [|exact Hout].
  intros l [a o] [_ Hl] k rows ->.
  destruct o as [r|];
    cbn [fst snd output_value scaled_matrix augmented_matrix] in Hl;
    eexists; exact Hl.
Qed.

Lemma map_fst_cells (f : nat * nat -> option F) (ps : list (nat * nat)) :
  map fst (flat_map (cell f) ps)
  = filter (fun p => match f p with Some _ => true | None => false end) ps.
Proof.
  induction ps as [|p ps IH]; [reflexivity|].
  cbn [flat_map filter]. rewrite map_app.
  unfold cell at 1. destruct (f p); simpl; [f_equal|]; exact IH.
Qed.

Lemma canonical_positions n (es : list (entry F)) :
  is_canonical n es ->
  NoDup (map fst es) /\
  exists keep, map fst es = filter keep (positions n).
Proof.
  intros [f ->]. rewrite map_fst_cells. split.
  - apply NoDup_filter, NoDup_positions.
  - now eexists.
Qed.

(** X5.  A sparse matrix returned for a numeric effective rate is in
    canonical form: its stored positions are a selection of the positions
    of the matrix in row-major order, so none is stored twice, whatever
    duplicates and order the input had. *)
Theorem normalize_adj_sparse_canonical s h locs avals rate os :
  Forall2 (holds h) locs avals ->
  Forall (fun a => wf_matrix a = true) avals ->
  effective_rates rate (length locs) = Ok (map rate_of_elem os) ->
  exists h' out,
    normalize_adj locs rate s h = (h', Ok out) /\
    Forall2 (fun l '(a, o) =>
      forall m r, a = Sparse m -> o = Some r ->
        exists R, holds h' l (Sparse R) /\
          NoDup (map fst (sp_entries R)) /\
          exists keep,
            map fst (sp_entries R) = filter keep (positions (sp_dim m)))
      (out_locs out) (combine avals os).
Proof.
  intros Hlocs Hwf Hrates.
  destruct (normalize_adj_elems s h locs avals rate os Hlocs Hwf Hrates)
    as (h' & out & Hrun & _ & _ & _ & _ & Hout).
  exists h', out. split; [exact Hrun|].
  eapply Forall2_impl; [|exact Hout].
  intros l [a o] [_ Hl] m r -> ->.
  cbn [fst snd output_value scaled_matrix] in Hl.
  eexists. split; [exact Hl|]. apply canonical_positions.
  apply is_canonical_map, sparse_sum_canonical.
Qed.

Lemma stored_map_values (g : entry F -> F) (es : list (entry F)) i j :
  stored (map (fun e => (fst e, g e)) es) i j = stored es i j.
Proof.
  unfold stored. induction es as [|[[r c] v] es IH]; simpl; [reflexivity|].
  now rewrite IH.
Qed.

(** X6.  A sparse matrix returned for a numeric effective rate stores
    exactly the positions at which [A + selfloop * I] is not zero: zeros
    stored in the input, and entries that the self loops cancel, are
    dropped on the way to the COO matrix, and the scaling drops or adds
    none, also where the scaled value is zero. *)
Theorem normalize_adj_sparse_pattern s h locs avals rate os :
  Forall2 (holds h) locs avals ->
  Forall (fun a => wf_matrix a = true) avals ->
  effective_rates rate (length locs) = Ok (map rate_of_elem os) ->
  exists h' out,
    normalize_adj locs rate s h = (h', Ok out) /\
    Forall2 (fun l '(a, o) =>
      forall m r, a = Sparse m -> o = Some r ->
        exists R, holds h' l (Sparse R) /\
          forall i j, i < sp_dim m -> j < sp_dim m ->
            stored (sp_entries R) i j
            = negb (is_zero (augmented s a i j)))
      (out_locs out) (combine avals os).
Proof.
  intros Hlocs Hwf Hrates.
  destruct (normalize_adj_elems s h locs avals rate os Hlocs Hwf Hrates)
    as (h' & out & Hrun & _ & _ & _ & _ & Hout).
  exists h', out. split; [exact Hrun|].
  eapply Forall2_impl; [|exact Hout].
  intros l [a o] [_ Hl] m r -> ->.
  cbn [fst snd output_value scaled_matrix] in Hl.
  eexists. split; [exact Hl|]. intros i j Hi Hj.
  cbn [sparse_result sp_entries]. rewrite stored_map_values.
  now apply stored_sparse_sum.
Qed.

(** ** Calls in sequence *)

Lemma normalize_adj_single_elem s h adj a o :
  holds h adj a -> wf_matrix a = true ->
  exists h' l,
    normalize_adj [adj] (rate_of_elem o) s h = (h', Ok (OSingle l)) /\
    extends h h' /\ holds h' l (output_value s a o).
Proof.
  intros Ha Hwf.
  destruct (normalize_adj_single s h adj a (rate_of_elem o) Ha)
    as (h' & res & Hrun & Hext & Hv).
  rewrite normalize_value_elem in Hv by exact Hwf.
  destruct Hv as (l & -> & Hl & _). now exists h', l.
Qed.

Lemma augmented_zero_augmented s a i j :
  i < dim a -> j < dim a ->
  augmented zero (augmented_matrix s a) i j = augmented s a i j.
Proof.
  intros Hi Hj. unfold augmented at 1.
  rewrite mat_entry_augmented_matrix by assumption.
  destruct (i =? j); apply add_0_r.
Qed.

Lemma degree_zero_augmented s a i :
  i < dim a -> degree zero (augmented_matrix s a) i = degree s a i.
Proof.
  intros Hi. unfold degree. rewrite dim_augmented_matrix.
  f_equal. apply map_ext_in. intros j Hj. apply in_seq in Hj.
  apply augmented_zero_augmented; lia.
Qed.

(** X7.  Two calls with rate [None] in sequence add their self loops one
    after the other: the second call, given the result of the first,
    returns [A] with (A[i,i] + selfloop1) + selfloop2 on the diagonal and
    the entries of [A] elsewhere. *)
Theorem normalize_adj_selfloops_add s1 s2 h adj a :
  holds h adj a -> wf_matrix a = true ->
  exists h1 l1 h2 l2 R,
    normalize_adj [adj] RNone s1 h = (h1, Ok (OSingle l1)) /\
    normalize_adj [l1] RNone s2 h1 = (h2, Ok (OSingle l2)) /\
    holds h2 l2 R /\ dim R = dim a /\ isspmatrix R = isspmatrix a /\
    forall i j, i < dim a -> j < dim a ->
      mat_entry R i j
      = if i =? j then add (add (mat_entry a i j) s1) s2 else mat_entry a i j.
Proof.
  intros Ha Hwf.
  destruct (normalize_adj_single_elem s1 h adj a None Ha Hwf)
    as (h1 & l1 & Hrun1 & _ & Hl1).
  destruct (normalize_adj_single_elem s2 h1 l1 _ None Hl1
              (wf_output_value s1 a None))
    as (h2 & l2 & Hrun2 & _ & Hl2).
  cbn [output_value] in Hl2.
  exists h1, l1, h2, l2, (augmented_matrix s2 (augmented_matrix s1 a)).
  split; [exact Hrun1|]. split; [exact Hrun2|]. split; [exact Hl2|].
  split; [now rewrite !dim_augmented_matrix|].
  split; [now rewrite !isspmatrix_augmented_matrix|].
  intros i j Hi Hj.
  rewrite mat_entry_augmented_matrix by now rewrite dim_augmented_matrix.
  unfold augmented at 1.
  rewrite mat_entry_augmented_matrix by assumption.
  unfold augmented. destruct (i =? j); [reflexivity|].
  now rewrite !add_0_r.
Qed.

(** X8.  Adding the self loops first, with rate [None], and scaling the
    result in a second call with [selfloop = 0] gives the same entries as
    one call with that self loop and that rate. *)
Theorem normalize_adj_selfloops_then_scale s r h adj a :
  holds h adj a -> wf_matrix a = true ->
  exists h1 l1 h2 l2 h3 l3 R R',
    normalize_adj [adj] RNone s h = (h1, Ok (OSingle l1)) /\
    normalize_adj [l1] (RScalar r) zero h1 = (h2, Ok (OSingle l2)) /\
    normalize_adj [adj] (RScalar r) s h = (h3, Ok (OSingle l3)) /\
    holds h2 l2 R /\ holds h3 l3 R' /\
    dim R = dim R' /\ isspmatrix R = isspmatrix R' /\
    forall i j, i < dim a -> j < dim a -> mat_entry R i j = mat_entry R' i j.
Proof.
  intros Ha Hwf.
  destruct (normalize_adj_single_elem s h adj a None Ha Hwf)
    as (h1 & l1 & Hrun1 & _ & Hl1).
  destruct (normalize_adj_single_elem zero h1 l1 _ (Some r) Hl1
              (wf_output_value s a None))
    as (h2 & l2 & Hrun2 & _ & Hl2).
  destruct (normalize_adj_single_elem s h adj a (Some r) Ha Hwf)
    as (h3 & l3 & Hrun3 & _ & Hl3).
  cbn [output_value] in Hl2, Hl3.
  do 8 eexists. split; [exact Hrun1|]. split; [exact Hrun2|].
  split; [exact Hrun3|]. split; [exact Hl2|]. split; [exact Hl3|].
  split; [now rewrite !dim_scaled_matrix, dim_augmented_matrix|].
  split.
  { destruct a; reflexivity. }
  intros i j Hi Hj.
  rewrite !mat_entry_scaled_matrix
    by (rewrite ?dim_augmented_matrix; assumption).
  rewrite !nth_degree_power by (rewrite ?dim_augmented_matrix; assumption).
  rewrite isspmatrix_augmented_matrix, augmented_zero_augmented by assumption.
  now rewrite !degree_zero_augmented by assumption.
Qed.

(** ** A sequence with [None] as the rate of a call with one matrix *)

Lemma rmapM_raise {A B} (f : A -> result B) (e : exc) (l : list A) :
  (forall x, In x l -> (exists v, f x = Ok v) \/ f x = Raise e) ->
  (exists x, In x l /\ f x = Raise e) ->
  rmapM f l = Raise e.
Proof.
  induction l as [|x l IH]; intros Hall (y & Hy & Hfy); [contradiction|].
  cbn [rmapM].
  destruct (Hall x (or_introl eq_refl)) as [[v Hv]|Hx]; [|now rewrite Hx].
  rewrite Hv. cbn [rbind].
  rewrite IH; [reflexivity| |].
  - intros z Hz. apply Hall. now right.
  - destruct Hy as [->|Hy]; [congruence|]. now exists y.
Qed.

Lemma power_elem_cases (p : F * option F) :
  (exists v, power_elem p = Ok v) \/ power_elem p = Raise TypeError.
Proof.
  destruct p as [d [x|]]; unfold power_elem; simpl; [left; now eexists | now right].
Qed.

Lemma in_combine_r_exists {A B} (l1 : list A) (l2 : list B) (y : B) :
  length l1 = length l2 -> In y l2 -> exists x, In (x, y) (combine l1 l2).
Proof.
  revert l2. induction l1 as [|x l1 IH]; intros [|z l2] Hlen Hy;
    try discriminate; try contradiction.
  destruct Hy as [->|Hy].
  - exists x. now left.
  - destruct (IH l2) as (x' & Hx'); [simpl in Hlen; lia | exact Hy |].
    exists x'. now right.
Qed.

Lemma np_power_none_entry (degs : list F) (l : list (option F)) :
  degs <> [] ->
  length l = length degs \/ length l = 1 ->
  In None l ->
  np_power degs (RSeq l) = Raise TypeError.
Proof.
  intros Hne Hlen Hnone. unfold np_power.
  assert (Hps : exists ps, np_broadcast2 degs l = Ok ps /\
                           exists d, In (d, None) ps).
  { destruct (Nat.eq_dec (length degs) (length l)) as [Heq|Hneq].
    - rewrite np_broadcast2_same by exact Heq. eexists. split; [reflexivity|].
      now apply in_combine_r_exists.
    - destruct Hlen as [Hlen|Hlen]; [congruence|].
      destruct l as [|y [|? ?]]; try discriminate.
      destruct Hnone as [->|[]].
      destruct degs as [|d [|d' degs]];
        [contradiction | simpl in Hneq; congruence |].
      unfold np_broadcast2. rewrite (proj2 (Nat.eqb_neq _ _) Hneq).
      eexists. split; [reflexivity|].
      exists d. now left. }
  destruct Hps as (ps & -> & d & Hd). cbn [rbind].
  apply rmapM_raise.
  - intros p _. apply power_elem_cases.
  - exists (d, None). now split.
Qed.

(** X9.  In a call with one matrix a rate sequence of length one or n
    that holds a [None] makes the call raise [TypeError]: the sequence is
    the exponent of [np.power], and [None] is no number there (unlike in
    a call with several matrices, where a [None] of the sequence means no
    scaling for its matrix). *)
Theorem normalize_adj_single_rate_none_entry s h adj a (l : list (option F)) :
  holds h adj a -> wf_matrix a = true ->
  0 < dim a ->
  length l = dim a \/ length l = 1 ->
  In None l ->
  raises (normalize_adj [adj] (RSeq l) s) h TypeError.
Proof.
  intros Ha Hwf Hn Hlen Hnone.
  destruct (normalize_adj_single s h adj a (RSeq l) Ha)
    as (h' & res & Hrun & _ & Hv).
  assert (Hval : normalize_value s a (RSeq l) = Raise TypeError).
  { unfold normalize_value.
    change (sp_scale s (sp_eye (dim a))) with (selfloops s (dim a)).
    rewrite mat_add_selfloops by exact Hwf. cbn [rbind].
    rewrite row_sums_augmented_matrix, np_power_none_entry; try assumption.
    - reflexivity.
    - intros Hnil. apply (f_equal (@length F)) in Hnil.
      rewrite length_tabulate in Hnil. simpl in Hnil. lia.
    - now rewrite length_tabulate. }
  rewrite Hval in Hv. subst res. now exists h'.
Qed.

End Further.

(** * The further properties on concrete matrices *)

Module FurtherExamples.

Import XInt Examples.

Local Open Scope Z_scope.



(** The matrices of [ex_heap] in the other order. *)
Definition ex_heap_swapped : heap XInt.t := [ex_sparse; ex_dense].

Definition ex_transformer : NormalizeAdj XInt.t :=
  {| na_rate := RScalar (Some 2); na_selfloop := Some 1 |}.


Lemma call_heap_independent_witness :
  Forall2 (holds ex_heap) [0%nat; 1%nat] [ex_dense; ex_sparse] /\
  Forall2 (holds ex_heap_swapped) [1%nat; 0%nat] [ex_dense; ex_sparse] /\
  exists h1' res1 h2' res2,
    call ex_transformer [0%nat; 1%nat] ex_heap = (h1', res1) /\
    call ex_transformer [1%nat; 0%nat] ex_heap_swapped = (h2', res2) /\
    same_outcome (holds h1') (holds h2') res1 res2.
Proof.
  assert (Hswapped : Forall2 (holds ex_heap_swapped) [1%nat; 0%nat]
                       [ex_dense; ex_sparse]) by (repeat constructor).
  split; [exact ex_heap_holds|]. split; [exact Hswapped|].
  exact (call_heap_independent ex_transformer ex_heap ex_heap_swapped
           [0%nat; 1%nat] [1%nat; 0%nat] [ex_dense; ex_sparse]
           ex_heap_holds Hswapped).
Defined.

(** The same object passed twice gives two objects. *)
Lemma normalize_adj_outputs_distinct_witness :
  exists h' out,
    normalize_adj [1%nat; 1%nat] (RScalar (Some 2)) (Some 1) ex_heap
    = (h', Ok out) /\
    NoDup (out_locs out).
Proof.
  destruct (normalize_adj [1%nat; 1%nat] (RScalar (Some 2)) (Some 1) ex_heap)
    as [h' [out|e]] eqn:Hrun; [|vm_compute in Hrun; discriminate Hrun].
  exists h', out. split; [reflexivity|].
  exact (normalize_adj_outputs_distinct (Some 1) ex_heap [1%nat; 1%nat]
           (RScalar (Some 2)) h' out Hrun).
Defined.

Lemma normalize_adj_outputs_wf_witness :
  Forall2 (holds ex_heap) [0%nat; 1%nat] [ex_dense; ex_sparse] /\
  Forall (fun a => wf_matrix a = true) [ex_dense; ex_sparse] /\
  effective_rates ex_rate 2 = Ok (map rate_of_elem ex_rates) /\
  exists h' out,
    normalize_adj [0%nat; 1%nat] ex_rate (Some 1) ex_heap = (h', Ok out).
Proof.
  split; [exact ex_heap_holds|]. split; [exact ex_heap_wf|].
  split; [reflexivity|].
  destruct (normalize_adj_outputs_wf (Some 1) ex_heap [0%nat; 1%nat]
              [ex_dense; ex_sparse] ex_rate ex_rates
              ex_heap_holds ex_heap_wf eq_refl)
    as (h' & out & Hrun & _).
  exists h', out. exact Hrun.
Defined.

Lemma normalize_adj_sparse_canonical_witness :
  Forall2 (holds ex_heap) [0%nat; 1%nat] [ex_dense; ex_sparse] /\
  Forall (fun a => wf_matrix a = true) [ex_dense; ex_sparse] /\
  effective_rates ex_rate 2 = Ok (map rate_of_elem ex_rates) /\
  exists h' out,
    normalize_adj [0%nat; 1%nat] ex_rate (Some 1) ex_heap = (h', Ok out).
Proof.
  split; [exact ex_heap_holds|]. split; [exact ex_heap_wf|].
  split; [reflexivity|].
  destruct (normalize_adj_sparse_canonical (Some 1) ex_heap [0%nat; 1%nat]
              [ex_dense; ex_sparse] ex_rate ex_rates
              ex_heap_holds ex_heap_wf eq_refl)
    as (h' & out & Hrun & _).
  exists h', out. exact Hrun.
Defined.

Lemma normalize_adj_sparse_pattern_witness :
  Forall2 (holds ex_heap) [0%nat; 1%nat] [ex_dense; ex_sparse] /\
  Forall (fun a => wf_matrix a = true) [ex_dense; ex_sparse] /\
  effective_rates ex_rate 2 = Ok (map rate_of_elem ex_rates) /\
  exists h' out,
    normalize_adj [0%nat; 1%nat] ex_rate (Some 1) ex_heap = (h', Ok out).
Proof.
  split; [exact ex_heap_holds|]. split; [exact ex_heap_wf|].
  split; [reflexivity|].
  destruct (normalize_adj_sparse_pattern (Some 1) ex_heap [0%nat; 1%nat]
              [ex_dense; ex_sparse] ex_rate ex_rates
              ex_heap_holds ex_heap_wf eq_refl)
    as (h' & out & Hrun & _).
  exists h', out. exact Hrun.
Defined.

Lemma normalize_adj_dense_kind_witness :
  Forall2 (holds ex_heap) [0%nat; 1%nat] [ex_dense; ex_sparse] /\
  Forall (fun a => wf_matrix a = true) [ex_dense; ex_sparse] /\
  effective_rates ex_rate 2 = Ok (map rate_of_elem ex_rates) /\
  exists h' out,
    normalize_adj [0%nat; 1%nat] ex_rate (Some 1) ex_heap = (h', Ok out).
Proof.
  split; [exact ex_heap_holds|]. split; [exact ex_heap_wf|].
  split; [reflexivity|].
  destruct (normalize_adj_dense_kind (Some 1) ex_heap [0%nat; 1%nat]
              [ex_dense; ex_sparse] ex_rate ex_rates
              ex_heap_holds ex_heap_wf eq_refl)
    as (h' & out & Hrun & _).
  exists h', out. exact Hrun.
Defined.

Lemma normalize_adj_selfloops_add_witness :
  holds ex_heap 1%nat ex_sparse /\ wf_matrix ex_sparse = true /\
  exists h1 l1 h2 l2 R,
    normalize_adj [1%nat] RNone (Some 1) ex_heap = (h1, Ok (OSingle l1)) /\
    normalize_adj [l1] RNone (Some 2) h1 = (h2, Ok (OSingle l2)) /\
    holds h2 l2 R /\ mat_entry R 0 0 = Some 3.
Proof.
  split; [reflexivity|]. split; [reflexivity|].
  destruct (normalize_adj_selfloops_add (Some 1) (Some 2) ex_heap 1%nat
              ex_sparse eq_refl eq_refl)
    as (h1 & l1 & h2 & l2 & R & Hrun1 & Hrun2 & HR & _ & _ & Hentry).
  exists h1, l1, h2, l2, R. split; [exact Hrun1|]. split; [exact Hrun2|].
  split; [exact HR|].
  rewrite (Hentry 0%nat 0%nat) by (simpl; lia). reflexivity.
Defined.

Lemma normalize_adj_selfloops_then_scale_witness :
  holds ex_heap 1%nat ex_sparse /\ wf_matrix ex_sparse = true /\
  exists h1 l1 h2 l2,
    normalize_adj [1%nat] RNone (Some 1) ex_heap = (h1, Ok (OSingle l1)) /\
    normalize_adj [l1] (RScalar (Some 2)) zero h1 = (h2, Ok (OSingle l2)).
Proof.
  split; [reflexivity|]. split; [reflexivity|].
  destruct (normalize_adj_selfloops_then_scale (Some 1) (Some 2) ex_heap
              1%nat ex_sparse eq_refl eq_refl)
    as (h1 & l1 & h2 & l2 & _ & _ & _ & _ & Hrun1 & Hrun2 & _).
  exists h1, l1, h2, l2. split; [exact Hrun1 | exact Hrun2].
Defined.

Lemma normalize_adj_single_rate_none_entry_witness :
  holds ex_heap 0%nat ex_dense /\ wf_matrix ex_dense = true /\
  (0 < dim ex_dense)%nat /\
  raises (normalize_adj [0%nat] (RSeq [None]) (Some 1)) ex_heap TypeError.
Proof.
  split; [reflexivity|]. split; [reflexivity|]. split; [simpl; lia|].
  apply (normalize_adj_single_rate_none_entry (Some 1) ex_heap 0%nat
           ex_dense [None] eq_refl eq_refl).
  - simpl. lia.
  - right. reflexivity.
  - left. reflexivity.
Defined.

End FurtherExamples.
